(** * Dividend-adjusted finite-difference option: grid limits and price transfer

    A shallow embedding of [QuantLib::Pricers::DividendOption]
    (dividendoption.cpp): its constructor, [executeIntermediateStep] and
    [movePricesBeforeExDiv].

    Conventions of the embedding:
    - a C++ [double] is idealised as a real number ([R]); [QL_LOG] is [ln].
      Rounding, infinities and NaN are outside the model;
    - a C++ [int] is an integer ([Z]); array sizes are far below the range
      of [int], so no wrap-around is written out;
    - an [Array] or [std::vector] is a list; reading or writing outside it
      (undefined behaviour in C++) stops the computation with
      [IndexOutOfRange];
    - a failed [QL_REQUIRE] stops the computation with an error;
    - the mutable members of the option are threaded explicitly. *)

From Stdlib Require Import Reals Lra Lia ZArith List Bool.
Import ListNotations.

Open Scope R_scope.

(** ** Part I: the model *)

(** *** Errors and the error monad *)

Inductive Error : Type :=
| ConfigurationError   (* a QL_REQUIRE of a constructor failed *)
| DegenerateGridError  (* not enough points to build the interpolation *)
| IndexOutOfRange.     (* an index outside an array or vector *)

Inductive result (A : Type) : Type :=
| Ok (a : A)
| Raise (e : Error).

Arguments Ok {A} a.
Arguments Raise {A} e.

Definition bind {A B : Type} (m : result A) (k : A -> result B) : result B :=
  match m with
  | Ok a => k a
  | Raise e => Raise e
  end.

Notation "x <- m ;; k" := (bind m (fun x => k))
  (at level 100, m at next level, right associativity).
Notation "' p <- m ;; k" := (bind m (fun x => match x with p => k end))
  (at level 100, p pattern, m at next level, right associativity).

Definition succeeds {A : Type} (m : result A) : Prop := exists a, m = Ok a.

(** [QL_REQUIRE(condition, message)] inside a constructor. *)
Definition QL_REQUIRE {P Q : Prop} (condition : {P} + {Q}) : result unit :=
  if condition then Ok tt else Raise ConfigurationError.

(** *** Arrays *)

Definition Time := R.
Definition Array := list R.

Definition size {A : Type} (a : list A) : Z := Z.of_nat (length a).

Definition in_range {A : Type} (a : list A) (i : Z) : bool :=
  ((0 <=? i) && (i <? size a))%Z.

(** [a[i]] as an rvalue. *)
Definition Array_get (a : Array) (i : Z) : result R :=
  if in_range a i then Ok (nth (Z.to_nat i) a 0) else Raise IndexOutOfRange.

Fixpoint replace_nth (n : nat) (v : R) (a : Array) : Array :=
  match a, n with
  | [], _ => []
  | _ :: a', O => v :: a'
  | x :: a', S n' => x :: replace_nth n' v a'
  end.

(** [a[i] = v]. *)
Definition Array_set (a : Array) (i : Z) (v : R) : result Array :=
  if in_range a i then Ok (replace_nth (Z.to_nat i) v a)
  else Raise IndexOutOfRange.

(** [a + x], the array with [x] added to every element. *)
Definition Array_plus (a : Array) (x : R) : Array := map (fun g => g + x) a.

(** *** Counted loops *)

(** [for_loop k j body s] runs [body j], [body (j+1)], ... [k] times. *)
Fixpoint for_loop {S : Type} (k : nat) (j : Z)
    (body : Z -> S -> result S) (s : S) : result S :=
  match k with
  | O => Ok s
  | Datatypes.S k' => s' <- body j s ;; for_loop k' (j + 1)%Z body s'
  end.

(** [for (j = 0; j < n; j++) body]. *)
Definition for_range {S : Type} (n : Z)
    (body : Z -> S -> result S) (s : S) : result S :=
  for_loop (Z.to_nat n) 0%Z body s.

(** *** The price transfer: [DividendOption::movePricesBeforeExDiv] *)

Section PriceTransfer.

(** The interpolant of [Math::CubicSpline]: [CubicSpline xs ys] is the
    function through the points [(xs, ys)].  The class is declared in
    ql/Math/cubicspline.hpp, which is not among the sources at hand; the
    interpolant is a parameter. *)
Variable CubicSpline : list R -> list R -> R -> R.

(** Modelled from the spec: the constructor of [Math::CubicSpline]
    (ql/Math/cubicspline.hpp, absent).  The spec has the transfer
    "fail with DegenerateGridError if fewer than 2 points survive";
    the transfer itself has no such test, so it lives in the
    constructor the transfer calls. *)
Definition CubicSpline_new (xs ys : list R) : result (R -> R) :=
  if (length xs <? 2)%nat then Raise DegenerateGridError
  else Ok (CubicSpline xs ys).

(** The body of the first loop: keep the points with a positive grid
    value, with the logarithm of the grid value and the price. *)
Definition collect (prices oldGrid : Array) (j : Z)
    (acc : list R * list R) : result (list R * list R) :=
  let '(logOldGrid, tmpPrices) := acc in
  p <- Array_get prices j ;;
  g <- Array_get oldGrid j ;;
  if Rgt_dec g 0 then Ok (logOldGrid ++ [ln g], tmpPrices ++ [p])
  else Ok (logOldGrid, tmpPrices).

(** The index at which the new grid is read for output index [j]. *)
Definition jGrid (newGrid oldGrid : Array) (j : Z) : result Z :=
  let gridSize := size oldGrid in
  a <- Array_get newGrid j ;;
  b <- Array_get oldGrid (gridSize - 2)%Z ;;
  if Rge_dec a b then Ok (gridSize - 2)%Z else Ok j.

(** The point at which the spline is evaluated for output index [j]. *)
Definition logNewGridPoint (newGrid oldGrid : Array) (j : Z) : result R :=
  jG <- jGrid newGrid oldGrid j ;;
  x <- Array_get newGrid jG ;;
  Ok (ln x).

(** The body of the second loop. *)
Definition assign (priceSpline : R -> R) (newGrid oldGrid : Array) (j : Z)
    (prices : Array) : result Array :=
  x <- logNewGridPoint newGrid oldGrid j ;;
  Array_set prices j (priceSpline x).

(** The two vectors the first loop builds. *)
Definition filtered (prices oldGrid : Array) : result (list R * list R) :=
  for_range (size oldGrid) (collect prices oldGrid) ([], []).

Definition movePricesBeforeExDiv (prices newGrid oldGrid : Array)
    : result Array :=
  let gridSize := size oldGrid in
  '(logOldGrid, tmpPrices) <- filtered prices oldGrid ;;
  priceSpline <- CubicSpline_new logOldGrid tmpPrices ;;
  for_range gridSize (assign priceSpline newGrid oldGrid) prices.

End PriceTransfer.

(** The old-grid points that survive the filter of the first loop, and the
    prices paired with them, written with list functions. *)
Definition positive (g : R) : bool := if Rgt_dec g 0 then true else false.

Definition survivors (oldGrid : Array) : list R := filter positive oldGrid.

Definition survivorPrices (prices oldGrid : Array) : list R :=
  map snd (filter (fun gp => positive (fst gp)) (combine oldGrid prices)).

(** The spline the transfer builds. *)
Definition priceSplineOf (CubicSpline : list R -> list R -> R -> R)
    (prices oldGrid : Array) : R -> R :=
  CubicSpline (map ln (survivors oldGrid)) (survivorPrices prices oldGrid).

(** *** The option object *)

Definition Rate := R.

(** [Option::Type]. *)
Inductive OptionType : Type := Call | Put | Straddle.

(** The constructor arguments that [DividendOption] hands on unchanged to
    its base class. *)
Record BSMArguments : Type := mkBSMArguments {
  type : OptionType;
  strike : R;
  dividendYield : Rate;
  riskFreeRate : Rate;
  residualTime : Time;
  volatility : R;
  timeSteps : Z;
  gridPoints : Z
}.

(** A step condition is known by what its [applyTo(array, time)] does. *)
Definition StepCondition := Array -> Time -> Array.

(** [addElements(v)]: the sum of the elements (the header that declares
    it is absent; the constructor's message calls the result the
    dividends, the spec the cumulative dividend sum). *)
Definition addElements (v : list R) : R := fold_left Rplus v 0.

Section Option.

(** The finite-difference operator and the time-marching model are
    opaque here. *)
Variables Operator Model : Type.

(** The members of the base class [MultiPeriodOption] (and of its own
    bases) that dividendoption.cpp reads or writes, and those written by
    the inherited methods it calls. *)
Record MultiPeriodOption : Type := mkMultiPeriodOption {
  underlying_ : R;
  dates_ : list Time;
  dateNumber_ : Z;
  center_ : R;
  sMin_ : R;
  sMax_ : R;
  grid_ : Array;
  initialPrices_ : Array;
  prices_ : Array;
  controlPrices_ : Array;
  finiteDifferenceOperator_ : Operator;
  model_ : Model;
  stepCondition_ : StepCondition
}.

Record DividendOption : Type := mkDividendOption {
  base_ :> MultiPeriodOption;
  dividends_ : list R
}.

(** Assignments to single members. *)
Definition with_base (f : MultiPeriodOption -> MultiPeriodOption)
    (o : DividendOption) : DividendOption :=
  mkDividendOption (f (base_ o)) (dividends_ o).

Definition set_center (v : R) : DividendOption -> DividendOption :=
  with_base (fun b => mkMultiPeriodOption
    (underlying_ b) (dates_ b) (dateNumber_ b) v (sMin_ b) (sMax_ b)
    (grid_ b) (initialPrices_ b) (prices_ b) (controlPrices_ b)
    (finiteDifferenceOperator_ b) (model_ b) (stepCondition_ b)).

Definition set_sMin (v : R) : DividendOption -> DividendOption :=
  with_base (fun b => mkMultiPeriodOption
    (underlying_ b) (dates_ b) (dateNumber_ b) (center_ b) v (sMax_ b)
    (grid_ b) (initialPrices_ b) (prices_ b) (controlPrices_ b)
    (finiteDifferenceOperator_ b) (model_ b) (stepCondition_ b)).

Definition set_sMax (v : R) : DividendOption -> DividendOption :=
  with_base (fun b => mkMultiPeriodOption
    (underlying_ b) (dates_ b) (dateNumber_ b) (center_ b) (sMin_ b) v
    (grid_ b) (initialPrices_ b) (prices_ b) (controlPrices_ b)
    (finiteDifferenceOperator_ b) (model_ b) (stepCondition_ b)).

Definition set_grid (v : Array) : DividendOption -> DividendOption :=
  with_base (fun b => mkMultiPeriodOption
    (underlying_ b) (dates_ b) (dateNumber_ b) (center_ b) (sMin_ b)
    (sMax_ b) v (initialPrices_ b) (prices_ b) (controlPrices_ b)
    (finiteDifferenceOperator_ b) (model_ b) (stepCondition_ b)).

Definition set_initialPrices (v : Array)
    : DividendOption -> DividendOption :=
  with_base (fun b => mkMultiPeriodOption
    (underlying_ b) (dates_ b) (dateNumber_ b) (center_ b) (sMin_ b)
    (sMax_ b) (grid_ b) v (prices_ b) (controlPrices_ b)
    (finiteDifferenceOperator_ b) (model_ b) (stepCondition_ b)).

Definition set_prices (v : Array) : DividendOption -> DividendOption :=
  with_base (fun b => mkMultiPeriodOption
    (underlying_ b) (dates_ b) (dateNumber_ b) (center_ b) (sMin_ b)
    (sMax_ b) (grid_ b) (initialPrices_ b) v (controlPrices_ b)
    (finiteDifferenceOperator_ b) (model_ b) (stepCondition_ b)).

Definition set_controlPrices (v : Array)
    : DividendOption -> DividendOption :=
  with_base (fun b => mkMultiPeriodOption
    (underlying_ b) (dates_ b) (dateNumber_ b) (center_ b) (sMin_ b)
    (sMax_ b) (grid_ b) (initialPrices_ b) (prices_ b) v
    (finiteDifferenceOperator_ b) (model_ b) (stepCondition_ b)).

Definition set_operator (v : Operator) : DividendOption -> DividendOption :=
  with_base (fun b => mkMultiPeriodOption
    (underlying_ b) (dates_ b) (dateNumber_ b) (center_ b) (sMin_ b)
    (sMax_ b) (grid_ b) (initialPrices_ b) (prices_ b) (controlPrices_ b)
    v (model_ b) (stepCondition_ b)).

Definition set_model (v : Model) : DividendOption -> DividendOption :=
  with_base (fun b => mkMultiPeriodOption
    (underlying_ b) (dates_ b) (dateNumber_ b) (center_ b) (sMin_ b)
    (sMax_ b) (grid_ b) (initialPrices_ b) (prices_ b) (controlPrices_ b)
    (finiteDifferenceOperator_ b) v (stepCondition_ b)).

Definition set_stepCondition (v : StepCondition)
    : DividendOption -> DividendOption :=
  with_base (fun b => mkMultiPeriodOption
    (underlying_ b) (dates_ b) (dateNumber_ b) (center_ b) (sMin_ b)
    (sMax_ b) (grid_ b) (initialPrices_ b) (prices_ b) (controlPrices_ b)
    (finiteDifferenceOperator_ b) (model_ b) v).

(** **** Construction: [DividendOption::DividendOption] *)

(** The constructor of the base class, which is not among the sources:
    a parameter.  It may reject its arguments. *)
Variable MultiPeriodOption_new :
  BSMArguments -> R -> list Time -> result MultiPeriodOption.

Definition DividendOption_new (args : BSMArguments) (underlying : R)
    (dividends : list R) (exdivdates : list Time) : result DividendOption :=
  b <- MultiPeriodOption_new args (underlying - addElements dividends)
         exdivdates ;;
  let this := mkDividendOption b dividends in
  _ <- QL_REQUIRE (Z.eq_dec (dateNumber_ this) (size (dividends_ this))) ;;
  _ <- QL_REQUIRE (Rgt_dec underlying (addElements dividends)) ;;
  Ok this.

(** **** The inherited methods [executeIntermediateStep] calls *)

(** What the methods of the finite-difference machinery compute; the
    classes that define them are not among the sources. *)
Record Machinery : Type := mkMachinery {
  gridLimits : R -> Time -> DividendOption -> R * R;
  buildGrid : DividendOption -> Array;
  buildInitialCondition : DividendOption -> Array;
  buildOperator : DividendOption -> Operator;
  buildModel : DividendOption -> Model;
  buildStepCondition : DividendOption -> StepCondition
}.

Variable fd : Machinery.

(** Modelled from the spec: [setGridLimits(center, time)], a method of a
    base class that is absent.  "New center = old center +
    dividendAmount": the method stores the center it is given (the
    file's log: "setGridLimits accepts the value for center").  The
    limits it leaves in [sMin_] and [sMax_] are the parameter
    [gridLimits]; the spec calls them the current bounds. *)
Definition setGridLimits (center : R) (t : Time) (o : DividendOption)
    : DividendOption :=
  let '(lo, hi) := gridLimits fd center t o in
  set_sMax hi (set_sMin lo (set_center center o)).

(** Modelled from the spec: [initializeGrid()] (absent) rebuilds the grid
    for the current center and limits; it writes [grid_]. *)
Definition initializeGrid (o : DividendOption) : DividendOption :=
  set_grid (buildGrid fd o) o.

(** Modelled from the spec: [initializeInitialCondition()] (absent)
    writes [initialPrices_]. *)
Definition initializeInitialCondition (o : DividendOption)
    : DividendOption :=
  set_initialPrices (buildInitialCondition fd o) o.

(** Modelled from the spec: [initializeOperator()] (absent) rebuilds the
    differential operator for the new grid. *)
Definition initializeOperator (o : DividendOption) : DividendOption :=
  set_operator (buildOperator fd o) o.

(** Modelled from the spec: [initializeModel()] (absent) rebuilds the
    model for the new grid. *)
Definition initializeModel (o : DividendOption) : DividendOption :=
  set_model (buildModel fd o) o.

(** Modelled from the spec: [initializeStepCondition()] (absent) rebuilds
    the step condition of the instrument. *)
Definition initializeStepCondition (o : DividendOption) : DividendOption :=
  set_stepCondition (buildStepCondition fd o) o.

(** **** [DividendOption::executeIntermediateStep] *)

Variable CubicSpline : list R -> list R -> R -> R.

(** Lines 130-135: the center and the limits of the grid. *)
Definition updateLimits (step : Z) (o : DividendOption)
    : result DividendOption :=
  d <- Array_get (dividends_ o) step ;;
  let newSMin := sMin_ o + d in
  t <- Array_get (dates_ o) step ;;
  let o := setGridLimits (center_ o + d) t o in
  if Rgt_dec newSMin (sMin_ o) then
    let o := set_sMin newSMin o in
    Ok (set_sMax (center_ o / (sMin_ o / center_ o)) o)
  else Ok o.

(** Lines 136-139: the old grid, shifted, and the new grid. *)
Definition rebuildGrid (step : Z) (o : DividendOption)
    : result (Array * DividendOption) :=
  d <- Array_get (dividends_ o) step ;;
  let oldGrid := Array_plus (grid_ o) d in
  let o := initializeGrid o in
  let o := initializeInitialCondition o in
  Ok (oldGrid, o).

(** Lines 143-144: both price arrays are moved to the new grid. *)
Definition movePrimary (oldGrid : Array) (o : DividendOption)
    : result DividendOption :=
  p <- movePricesBeforeExDiv CubicSpline (prices_ o) (grid_ o) oldGrid ;;
  Ok (set_prices p o).

Definition moveControl (oldGrid : Array) (o : DividendOption)
    : result DividendOption :=
  p <- movePricesBeforeExDiv CubicSpline (controlPrices_ o) (grid_ o)
         oldGrid ;;
  Ok (set_controlPrices p o).

(** Lines 145-147. *)
Definition rebuildOperator (o : DividendOption) : DividendOption :=
  initializeStepCondition (initializeModel (initializeOperator o)).

(** Line 148: [stepCondition_ -> applyTo(prices_, dates_[step])]. *)
Definition applyStepCondition (step : Z) (o : DividendOption)
    : result DividendOption :=
  t <- Array_get (dates_ o) step ;;
  Ok (set_prices (stepCondition_ o (prices_ o) t) o).

Definition executeIntermediateStep (step : Z) (o : DividendOption)
    : result DividendOption :=
  o <- updateLimits step o ;;
  '(oldGrid, o) <- rebuildGrid step o ;;
  o <- movePrimary oldGrid o ;;
  o <- moveControl oldGrid o ;;
  applyStepCondition step (rebuildOperator o).

End Option.

Arguments underlying_ {Operator Model}.
Arguments dates_ {Operator Model}.
Arguments dateNumber_ {Operator Model}.
Arguments center_ {Operator Model}.
Arguments sMin_ {Operator Model}.
Arguments sMax_ {Operator Model}.
Arguments grid_ {Operator Model}.
Arguments initialPrices_ {Operator Model}.
Arguments prices_ {Operator Model}.
Arguments controlPrices_ {Operator Model}.
Arguments finiteDifferenceOperator_ {Operator Model}.
Arguments model_ {Operator Model}.
Arguments stepCondition_ {Operator Model}.
Arguments base_ {Operator Model}.
Arguments dividends_ {Operator Model}.
Arguments mkDividendOption {Operator Model}.
Arguments mkMultiPeriodOption {Operator Model}.
Arguments set_center {Operator Model}.
Arguments set_sMin {Operator Model}.
Arguments set_sMax {Operator Model}.
Arguments set_grid {Operator Model}.
Arguments set_initialPrices {Operator Model}.
Arguments set_prices {Operator Model}.
Arguments set_controlPrices {Operator Model}.
Arguments set_operator {Operator Model}.
Arguments set_model {Operator Model}.
Arguments set_stepCondition {Operator Model}.
Arguments DividendOption_new {Operator Model}.
Arguments gridLimits {Operator Model}.
Arguments buildGrid {Operator Model}.
Arguments buildInitialCondition {Operator Model}.
Arguments buildOperator {Operator Model}.
Arguments buildModel {Operator Model}.
Arguments buildStepCondition {Operator Model}.
Arguments setGridLimits {Operator Model}.
Arguments initializeGrid {Operator Model}.
Arguments initializeInitialCondition {Operator Model}.
Arguments initializeOperator {Operator Model}.
Arguments initializeModel {Operator Model}.
Arguments initializeStepCondition {Operator Model}.
Arguments updateLimits {Operator Model}.
Arguments rebuildGrid {Operator Model}.
Arguments movePrimary {Operator Model}.
Arguments moveControl {Operator Model}.
Arguments rebuildOperator {Operator Model}.
Arguments applyStepCondition {Operator Model}.
Arguments executeIntermediateStep {Operator Model}.

(** *** An instance to run the option with *)

(** Modelled from the spec: the constructor of the base class (absent),
    after the constructor contract: "underlying > 0, ..., timeSteps > 0,
    gridPoints > 0.  Violations raise ConfigurationError before any grid
    work begins."  The number of dates goes to [dateNumber_]; the members
    of the grid are empty until a valuation starts. *)
Definition MultiPeriodOption_contract (args : BSMArguments) (underlying : R)
    (dates : list Time) : result (MultiPeriodOption unit unit) :=
  _ <- QL_REQUIRE (Rgt_dec underlying 0) ;;
  _ <- QL_REQUIRE (Z_gt_dec (timeSteps args) 0) ;;
  _ <- QL_REQUIRE (Z_gt_dec (gridPoints args) 0) ;;
  Ok (mkMultiPeriodOption underlying dates (size dates) underlying 0 0
        [] [] [] [] tt tt (fun a _ => a)).

(** A grid of three points, a call payoff struck at 100 as initial
    condition and the American floor as step condition. *)
Definition threePointMachinery : Machinery unit unit :=
  mkMachinery unit unit
    (fun _ _ o => (sMin_ o, sMax_ o))
    (fun o => [sMin_ o; center_ o; sMax_ o])
    (fun o => map (fun g => Rmax (g - 100) 0) (grid_ o))
    (fun _ => tt)
    (fun _ => tt)
    (fun o => fun a _ =>
       map (fun pq => Rmax (fst pq) (snd pq)) (combine a (initialPrices_ o))).

(** Scenario A after the backward sweep has reached its one dividend. *)
Definition scenarioA : DividendOption unit unit :=
  mkDividendOption
    (mkMultiPeriodOption 95 [1/2] 1 95 50 (361/2)
       [50; 95; 361/2] [0; 0; 161/2] [0; 6; 82] [0; 5; 81] tt tt
       (fun a _ => a))
    [5].

Definition scenarioArguments : BSMArguments :=
  mkBSMArguments Call 100 0 (1/20) 1 (1/5) 100 3.

(** The spec's words for the clamp: "let jGrid = j if newGrid[j] <
    oldGrid[len(oldGrid)-2], else jGrid = len(oldGrid)-2", and the point
    "ln(newGrid[jGrid])".  To be compared with [jGrid] and
    [logNewGridPoint] above. *)
Definition spec_jGrid (newGrid oldGrid : Array) (j : nat) : nat :=
  if Rlt_dec (nth j newGrid 0) (nth (length oldGrid - 2) oldGrid 0)
  then j else (length oldGrid - 2)%nat.

Definition spec_point (newGrid oldGrid : Array) (j : nat) : R :=
  ln (nth (spec_jGrid newGrid oldGrid j) newGrid 0).

(** What the transfer returns when it ends normally: the spline at the
    spec's points for the indices of the loop, the prices behind them as
    they were. *)
Definition transferred (CubicSpline : list R -> list R -> R -> R)
    (prices newGrid oldGrid : Array) : Array :=
  map (fun j => priceSplineOf CubicSpline prices oldGrid
                  (spec_point newGrid oldGrid j))
      (seq 0 (length oldGrid))
  ++ skipn (length oldGrid) prices.

(** "Grid values strictly increasing". *)
Definition increasing (g : Array) : Prop :=
  forall i j : nat, (i < j < length g)%nat -> nth i g 0 < nth j g 0.

(** "Interpolation, not fitting - passes exactly through filtered points":
    [f] takes the value [ys[i]] at every knot [xs[i]]. *)
Definition interpolates (f : R -> R) (xs ys : list R) : Prop :=
  forall i : nat, (i < length xs)%nat -> f (nth i xs 0) = nth i ys 0.

(** An interpolant to run the transfer with: the broken line through the
    points, continued by its first and last segments. *)
Fixpoint linearInterpolation (xs ys : list R) (x : R) : R :=
  match xs, ys with
  | x0 :: xs', y0 :: ys' =>
      match xs', ys' with
      | x1 :: _, y1 :: _ =>
          if Rle_dec x x1 then y0 + (y1 - y0) * ((x - x0) / (x1 - x0))
          else match xs' with
               | [_] => y0 + (y1 - y0) * ((x - x0) / (x1 - x0))
               | _ => linearInterpolation xs' ys' x
               end
      | _, _ => y0
      end
  | _, _ => 0
  end.

(** *** The control variate: [DividendOption::initializeControlVariate] *)

(** The arguments with which [initializeControlVariate] constructs the
    [DividendEuropeanOption] behind [analytic_]. *)
Record AnalyticArguments : Type := mkAnalyticArguments {
  analytic_type : OptionType;
  analytic_underlying : R;
  analytic_strike : R;
  analytic_dividendYield : Rate;
  analytic_riskFreeRate : Rate;
  analytic_residualTime : Time;
  analytic_volatility : R;
  analytic_dividends : list R;
  analytic_dates : list Time
}.

(** The members [type_], [strike_], [dividendYield_], [riskFreeRate_],
    [residualTime_] and [volatility_], which no method of
    dividendoption.cpp writes, are read from the constructor arguments. *)
Definition initializeControlVariate {Operator Model : Type}
    (members : BSMArguments) (o : DividendOption Operator Model)
    : AnalyticArguments :=
  mkAnalyticArguments (type members)
    (underlying_ o + addElements (dividends_ o))
    (strike members) (dividendYield members) (riskFreeRate members)
    (residualTime members) (volatility members)
    (dividends_ o) (dates_ o).

(** *** [SimpleQuote] (simplequote.hpp) *)

Module SimpleQuote.

(** The stored value, and the number of notifications sent to the
    observers so far ([notifyObservers] is inherited from a class that is
    not among the sources; what is kept of it is that it was called). *)
Record SimpleQuote : Type := mkSimpleQuote {
  value_ : R;
  notifications : nat
}.

Definition new (value : R) : SimpleQuote := mkSimpleQuote value 0.

Definition value (q : SimpleQuote) : R := value_ q.

Definition notifyObservers (q : SimpleQuote) : SimpleQuote :=
  mkSimpleQuote (value_ q) (S (notifications q)).

(** [setValue(value)]: the difference returned, and the quote after. *)
Definition setValue (value : R) (q : SimpleQuote) : R * SimpleQuote :=
  let diff := value - value_ q in
  if Req_dec_T diff 0 then (diff, q)
  else (diff, notifyObservers (mkSimpleQuote value (notifications q))).

End SimpleQuote.

(** *** [BarrierOption::arguments::validate] (barrieroption.cpp) *)

Module BarrierOption.

(** [Barrier::Type]; [OtherType] stands for any value outside the four
    enumerators, which the [default] branch of [validate] receives. *)
Inductive BarrierType : Type := DownIn | UpIn | DownOut | UpOut | OtherType.

(** The members of [BarrierOption::arguments] that [validate] reads. *)
Record arguments : Type := mkArguments {
  barrierType : BarrierType;
  barrier : R;
  rebate : R;
  underlying : R
}.

Section Validate.

(** [VanillaOption::arguments::validate], which is not among the sources:
    a parameter. *)
Variable VanillaOption_validate : arguments -> result unit.

(** Every failed [QL_REQUIRE] and the [throw Error] of the default branch
    raise the same class of exception; it carries the tag
    [ConfigurationError] here. *)
Definition validate (a : arguments) : result unit :=
  _ <- VanillaOption_validate a ;;
  match barrierType a with
  | DownIn => QL_REQUIRE (Rge_dec (underlying a) (barrier a))
  | UpIn => QL_REQUIRE (Rle_dec (underlying a) (barrier a))
  | DownOut => QL_REQUIRE (Rge_dec (underlying a) (barrier a))
  | UpOut => QL_REQUIRE (Rle_dec (underlying a) (barrier a))
  | OtherType => Raise ConfigurationError
  end.

End Validate.

End BarrierOption.

(** *** [CliquetOptionPathPricer] and [McCliquetOption] (mccliquetoption.cpp) *)

Module Cliquet.

Record CliquetOptionPathPricer : Type := mkCliquetOptionPathPricer {
  type_ : OptionType;
  underlying_ : R;
  moneyness_ : R;
  accruedCoupon_ : R;
  lastFixing_ : R;
  localCap_ : R;
  localFloor_ : R;
  globalCap_ : R;
  globalFloor_ : R;
  discounts_ : list R;
  redemptionOnly_ : bool
}.

Section PathPricer.

(** [Null<double>()] and [QL_MAX_DOUBLE], two constants of headers that
    are not among the sources, and the value of
    [PlainVanillaPayoff(type, strike)(price)] (ql/Instruments/payoffs.hpp,
    absent): parameters. *)
Variable NullDouble : R.
Variable QL_MAX_DOUBLE : R.
Variable PlainVanillaPayoff : OptionType -> R -> R -> R.

(** The quotient of two doubles.  By a zero divisor the code obtains an
    infinity or NaN, which is no real number: the model leaves that value
    open, as the parameter [divisionByZero] of the dividend. *)
Variable divisionByZero : R -> R.

Definition quotient (x y : R) : R :=
  if Req_dec_T y 0 then divisionByZero x else x / y.

(** The constructor.  A failed [QL_REQUIRE] carries the tag
    [ConfigurationError]. *)
Definition new (type : OptionType)
    (underlying moneyness accruedCoupon lastFixing localCap localFloor
       globalCap globalFloor : R)
    (discounts : list R) (redemptionOnly : bool)
    : result CliquetOptionPathPricer :=
  _ <- QL_REQUIRE (Rgt_dec underlying 0) ;;
  _ <- QL_REQUIRE (Rgt_dec moneyness 0) ;;
  Ok (mkCliquetOptionPathPricer type underlying moneyness
        (if Req_dec_T accruedCoupon NullDouble then 0 else accruedCoupon)
        lastFixing
        (if Req_dec_T localCap NullDouble then QL_MAX_DOUBLE else localCap)
        (if Req_dec_T localFloor NullDouble then 0 else localFloor)
        (if Req_dec_T globalCap NullDouble then QL_MAX_DOUBLE else globalCap)
        (if Req_dec_T globalFloor NullDouble then 0 else globalFloor)
        discounts redemptionOnly).

(** The body of the loop of [operator()], on the triple of the locals
    [result], [lastFixing] and [underlying]. *)
Definition fixing (p : CliquetOptionPathPricer) (path : list R) (i : Z)
    (s : R * R * R) : result (R * R * R) :=
  let '(result, lastFixing, underlying) := s in
  x <- Array_get path i ;;
  let underlying := underlying * exp x in
  result <-
    (if Req_dec_T lastFixing NullDouble then Ok result
     else
       let payoff :=
         quotient
           (PlainVanillaPayoff (type_ p) (moneyness_ p * lastFixing)
              underlying)
           lastFixing in
       let payoff := Rmax payoff (localFloor_ p) in
       let payoff := Rmin payoff (localCap_ p) in
       if redemptionOnly_ p then Ok (result + payoff)
       else d <- Array_get (discounts_ p) i ;; Ok (result + payoff * d)) ;;
  Ok (result, underlying, underlying).

(** [operator()(path)]; a path is the list of its values [path[i]]. *)
Definition price (p : CliquetOptionPathPricer) (path : list R) : result R :=
  let n := size path in
  _ <- QL_REQUIRE (Z_gt_dec n 0) ;;
  _ <- QL_REQUIRE (Z.eq_dec n (size (discounts_ p))) ;;
  let result := if redemptionOnly_ p then accruedCoupon_ p else 0 in
  s <- for_range n (fixing p path) (result, lastFixing_ p, underlying_ p) ;;
  let result := fst (fst s) in
  let result :=
    if redemptionOnly_ p
    then Rmin (Rmax result (globalFloor_ p)) (globalCap_ p)
    else result in
  if redemptionOnly_ p then
    back <- Array_get (discounts_ p) (size (discounts_ p) - 1)%Z ;;
    Ok (back * result)
  else Ok result.

(** The discounts that the constructor of [McCliquetOption] computes
    (lines 138-140): a vector of [times.size()] elements, filled in a
    loop with [riskFreeRate->discount(times[i])].  The term structure is
    not among the sources; its [discount] is a parameter and may throw. *)
Variable discount : Time -> result R.

Definition fillDiscount (times : list Time) (i : Z) (discounts : list R)
    : result (list R) :=
  t <- Array_get times i ;;
  d <- discount t ;;
  Array_set discounts i d.

Definition McCliquetOption_discounts (times : list Time) : result (list R) :=
  for_range (size times) (fillDiscount times) (repeat 0 (length times)).

(** Lines 143-156: the quote, the diffusion process, the time grid, the
    sequence generator of [grid.size()-1] dimensions and the path
    generator.  Their classes are not among the sources and each
    constructor may throw: one parameter, of the underlying, the times
    and the seed (the term-structure handles are fixed with it). *)
Variable PathGenerator : Type.
Variable pathGenerator_new : R -> list Time -> Z -> result PathGenerator.

(** Lines 167-170: the Monte Carlo model of the generator and the
    pricer, stored in [mcModel_]; its class is absent too. *)
Variable MonteCarloModel : Type.
Variable MonteCarloModel_new :
  PathGenerator -> CliquetOptionPathPricer -> result MonteCarloModel.

(** The constructor of [McCliquetOption]; its result is [mcModel_]. *)
Definition McCliquetOption_new (type : OptionType)
    (underlying moneyness : R) (times : list Time)
    (accruedCoupon lastFixing localCap localFloor globalCap globalFloor : R)
    (redemptionOnly : bool) (seed : Z) : result MonteCarloModel :=
  discounts <- McCliquetOption_discounts times ;;
  pathGenerator <- pathGenerator_new underlying times seed ;;
  cliquetPathPricer <-
    new type underlying moneyness accruedCoupon lastFixing localCap
      localFloor globalCap globalFloor discounts redemptionOnly ;;
  MonteCarloModel_new pathGenerator cliquetPathPricer.

End PathPricer.

End Cliquet.

(** ** Part II: properties *)

(** *** The error monad *)

Lemma bind_Ok_inv {A B : Type} (m : result A) (k : A -> result B) (b : B) :
  bind m k = Ok b -> exists a, m = Ok a /\ k a = Ok b.
Proof.
  destruct m as [a | e]; simpl; intros H.
  - exists a. split; [reflexivity | exact H].
  - discriminate H.
Qed.

Lemma bind_Ok {A B : Type} (m : result A) (k : A -> result B) (a : A) :
  m = Ok a -> bind m k = k a.
Proof. intros ->. reflexivity. Qed.

(** *** Arrays *)

Lemma size_nat {A : Type} (a : list A) : Z.to_nat (size a) = length a.
Proof. unfold size. apply Nat2Z.id. Qed.

Lemma in_range_nat {A : Type} (a : list A) (n : nat) :
  (n < length a)%nat -> in_range a (Z.of_nat n) = true.
Proof.
  intros H. unfold in_range, size.
  apply andb_true_intro. split; [apply Z.leb_le | apply Z.ltb_lt]; lia.
Qed.

Lemma in_range_true {A : Type} (a : list A) (i : Z) :
  in_range a i = true -> (0 <= i < size a)%Z.
Proof.
  unfold in_range. intros H. apply andb_prop in H. destruct H as [H1 H2].
  apply Z.leb_le in H1. apply Z.ltb_lt in H2. lia.
Qed.

Lemma Array_get_nat (a : Array) (n : nat) :
  (n < length a)%nat -> Array_get a (Z.of_nat n) = Ok (nth n a 0).
Proof.
  intros H. unfold Array_get. rewrite (in_range_nat a n H).
  rewrite Nat2Z.id. reflexivity.
Qed.

Lemma Array_get_Ok_inv (a : Array) (i : Z) (x : R) :
  Array_get a i = Ok x ->
  (0 <= i < size a)%Z /\ x = nth (Z.to_nat i) a 0.
Proof.
  unfold Array_get. destruct (in_range a i) eqn:E; intros H.
  - split; [apply in_range_true; exact E | congruence].
  - discriminate H.
Qed.

Lemma replace_nth_length (n : nat) (v : R) (a : Array) :
  length (replace_nth n v a) = length a.
Proof.
  revert n. induction a as [| x a IH]; intros [| n]; simpl; auto.
Qed.

Lemma replace_nth_middle (pre : Array) (x v : R) (l : Array) :
  replace_nth (length pre) v (pre ++ x :: l) = pre ++ v :: l.
Proof.
  induction pre as [| y pre IH]; simpl; [reflexivity | now rewrite IH].
Qed.

Lemma Array_set_middle (pre : Array) (x v : R) (l : Array) :
  Array_set (pre ++ x :: l) (Z.of_nat (length pre)) v = Ok (pre ++ v :: l).
Proof.
  unfold Array_set. rewrite in_range_nat.
  - rewrite Nat2Z.id, replace_nth_middle. reflexivity.
  - rewrite length_app. simpl. lia.
Qed.

Lemma Array_get_middle (pre : Array) (x : R) (l : Array) :
  Array_get (pre ++ x :: l) (Z.of_nat (length pre)) = Ok x.
Proof.
  rewrite Array_get_nat.
  - now rewrite nth_middle.
  - rewrite length_app. simpl. lia.
Qed.

Lemma Array_get_beyond (a : Array) (n : nat) :
  (length a <= n)%nat -> Array_get a (Z.of_nat n) = Raise IndexOutOfRange.
Proof.
  intros H. unfold Array_get, in_range, size.
  replace (Z.of_nat n <? Z.of_nat (length a))%Z with false.
  - now rewrite andb_false_r.
  - symmetry. apply Z.ltb_ge. lia.
Qed.

Lemma nth_map_seq (f : nat -> R) (n j : nat) (d : R) :
  (j < n)%nat -> nth j (map f (seq 0 n)) d = f j.
Proof.
  intros H. rewrite (nth_indep _ d (f 0%nat)).
  - rewrite map_nth. rewrite seq_nth; [reflexivity | exact H].
  - rewrite length_map, length_seq. exact H.
Qed.

(** *** Counted loops *)

(** A loop that ends normally has run its body normally at every index. *)
Lemma for_loop_Ok_body {S : Type} (body : Z -> S -> result S) :
  forall (k : nat) (j0 : Z) (s s' : S),
    for_loop k j0 body s = Ok s' ->
    forall j, (j0 <= j < j0 + Z.of_nat k)%Z ->
      exists s1 s2, body j s1 = Ok s2.
Proof.
  induction k as [| k IH]; intros j0 s s' H j Hj.
  - lia.
  - simpl in H. apply bind_Ok_inv in H. destruct H as [s1 [Hb Hrest]].
    destruct (Z.eq_dec j j0) as [-> | Hne].
    + exists s, s1. exact Hb.
    + apply (IH _ _ _ Hrest). lia.
Qed.

(** *** The price transfer *)

Section PriceTransferProperties.

Variable CubicSpline : list R -> list R -> R -> R.

(** The first loop, started behind a prefix that was already visited. *)
Lemma collect_loop :
  forall (rest rest_p pre_g pre_p logs tmp : list R),
    length pre_g = length pre_p ->
    (length rest <= length rest_p)%nat ->
    for_loop (length rest) (Z.of_nat (length pre_g))
      (collect (pre_p ++ rest_p) (pre_g ++ rest)) (logs, tmp)
    = Ok (logs ++ map ln (survivors rest),
          tmp ++ survivorPrices rest_p rest).
Proof.
  induction rest as [| g rest IH]; intros rest_p pre_g pre_p logs tmp Hpre Hlen.
  - simpl. unfold survivorPrices. simpl. now rewrite !app_nil_r.
  - destruct rest_p as [| p rest_p]; [simpl in Hlen; lia |].
    simpl in Hlen.
    cbn [length for_loop]. unfold collect at 1.
    rewrite Hpre at 1. rewrite Array_get_middle. cbn [bind].
    rewrite Array_get_middle. cbn [bind].
    assert (Hnext : (Z.of_nat (length pre_g) + 1)%Z
                    = Z.of_nat (length (pre_g ++ [g]))).
    { rewrite length_app. simpl. lia. }
    assert (Hg : pre_g ++ g :: rest = (pre_g ++ [g]) ++ rest).
    { now rewrite <- app_assoc. }
    assert (Hp : pre_p ++ p :: rest_p = (pre_p ++ [p]) ++ rest_p).
    { now rewrite <- app_assoc. }
    rewrite Hnext, Hg, Hp.
    unfold survivors, survivorPrices. cbn [filter combine fst].
    destruct (Rgt_dec g 0) as [Hpos | Hneg].
    + replace (positive g) with true
        by (unfold positive; destruct (Rgt_dec g 0); [reflexivity | lra]).
      cbn [bind]. fold (survivors rest).
      fold (survivorPrices rest_p rest).
      rewrite IH.
      * cbn [map snd]. now rewrite <- !app_assoc.
      * rewrite !length_app. simpl. lia.
      * lia.
    + replace (positive g) with false
        by (unfold positive; destruct (Rgt_dec g 0); [lra | reflexivity]).
      cbn [bind]. fold (survivors rest).
      fold (survivorPrices rest_p rest).
      rewrite IH.
      * reflexivity.
      * rewrite !length_app. simpl. lia.
      * lia.
Qed.

Lemma filtered_Ok (prices oldGrid : Array) :
  (length oldGrid <= length prices)%nat ->
  filtered prices oldGrid
  = Ok (map ln (survivors oldGrid), survivorPrices prices oldGrid).
Proof.
  intros H. unfold filtered, for_range. rewrite size_nat.
  exact (collect_loop oldGrid prices [] [] [] [] eq_refl H).
Qed.

Lemma filtered_Ok_inv (prices oldGrid : Array) (r : list R * list R) :
  filtered prices oldGrid = Ok r ->
  (length oldGrid <= length prices)%nat.
Proof.
  intros H. unfold filtered, for_range in H. rewrite size_nat in H.
  destruct (length oldGrid) as [| n] eqn:En; [lia |].
  destruct (for_loop_Ok_body _ _ _ _ _ H (Z.of_nat n)) as [[l t] [s2 Hb]];
    [lia |].
  unfold collect in Hb. apply bind_Ok_inv in Hb.
  destruct Hb as [p [Hp _]]. apply Array_get_Ok_inv in Hp.
  unfold size in Hp. lia.
Qed.

(** The clamp of the source against the clamp of the spec. *)
Lemma jGrid_spec (newGrid oldGrid : Array) (j : nat) :
  (2 <= length oldGrid)%nat ->
  (j < length newGrid)%nat ->
  jGrid newGrid oldGrid (Z.of_nat j)
  = Ok (Z.of_nat (spec_jGrid newGrid oldGrid j)).
Proof.
  intros H2 Hj. unfold jGrid, spec_jGrid.
  rewrite (Array_get_nat newGrid j Hj). cbn [bind].
  replace (size oldGrid - 2)%Z with (Z.of_nat (length oldGrid - 2))
    by (unfold size; lia).
  rewrite Array_get_nat by lia. cbn [bind].
  destruct (Rge_dec _ _) as [Hge | Hlt];
    destruct (Rlt_dec _ _) as [Hl | Hnl]; try reflexivity; lra.
Qed.

Lemma spec_jGrid_bound (newGrid oldGrid : Array) (j : nat) :
  (2 <= length oldGrid)%nat -> (j < length oldGrid)%nat ->
  (spec_jGrid newGrid oldGrid j < length oldGrid)%nat.
Proof.
  intros H2 Hj. unfold spec_jGrid. destruct (Rlt_dec _ _); lia.
Qed.

Lemma logNewGridPoint_spec (newGrid oldGrid : Array) (j : nat) :
  (2 <= length oldGrid)%nat ->
  (length oldGrid <= length newGrid)%nat ->
  (j < length oldGrid)%nat ->
  logNewGridPoint newGrid oldGrid (Z.of_nat j)
  = Ok (spec_point newGrid oldGrid j).
Proof.
  intros H2 Hlen Hj. unfold logNewGridPoint, spec_point.
  rewrite jGrid_spec by lia. cbn [bind].
  rewrite Array_get_nat.
  - reflexivity.
  - pose proof (spec_jGrid_bound newGrid oldGrid j H2 Hj). lia.
Qed.

(** The second loop, started behind a prefix that was already written. *)
Lemma assign_loop (priceSpline : R -> R) (newGrid oldGrid : Array) :
  forall (rest pre tail : list R),
    (2 <= length oldGrid)%nat ->
    (length oldGrid <= length newGrid)%nat ->
    (length pre + length rest <= length oldGrid)%nat ->
    for_loop (length rest) (Z.of_nat (length pre))
      (assign priceSpline newGrid oldGrid) (pre ++ rest ++ tail)
    = Ok (pre
          ++ map (fun j => priceSpline (spec_point newGrid oldGrid j))
               (seq (length pre) (length rest))
          ++ tail).
Proof.
  induction rest as [| x rest IH]; intros pre tail H2 Hng Hlen.
  - reflexivity.
  - simpl in Hlen. cbn [length for_loop]. unfold assign at 1.
    rewrite logNewGridPoint_spec by lia. cbn [bind].
    cbn [app]. rewrite Array_set_middle. cbn [bind].
    replace (Z.of_nat (length pre) + 1)%Z
      with (Z.of_nat (length (pre ++ [priceSpline
              (spec_point newGrid oldGrid (length pre))])))
      by (rewrite length_app; simpl; lia).
    replace (pre ++ priceSpline (spec_point newGrid oldGrid (length pre))
               :: rest ++ tail)
      with ((pre ++ [priceSpline (spec_point newGrid oldGrid (length pre))])
              ++ rest ++ tail)
      by (now rewrite <- app_assoc).
    rewrite IH.
    + rewrite <- app_assoc. cbn [app seq map].
      rewrite length_app. simpl.
      now replace (length pre + 1)%nat with (S (length pre)) by lia.
    + exact H2.
    + exact Hng.
    + rewrite length_app. simpl. lia.
Qed.

Lemma survivors_length_le (oldGrid : Array) :
  (length (survivors oldGrid) <= length oldGrid)%nat.
Proof. unfold survivors. apply filter_length_le. Qed.

Lemma movePrices_Ok (prices newGrid oldGrid : Array) :
  (length oldGrid <= length prices)%nat ->
  (length oldGrid <= length newGrid)%nat ->
  (2 <= length (survivors oldGrid))%nat ->
  movePricesBeforeExDiv CubicSpline prices newGrid oldGrid
  = Ok (transferred CubicSpline prices newGrid oldGrid).
Proof.
  intros Hp Hng Hs.
  pose proof (survivors_length_le oldGrid) as Hle.
  unfold movePricesBeforeExDiv. rewrite (filtered_Ok _ _ Hp). cbn [bind].
  unfold CubicSpline_new. rewrite length_map.
  destruct (Nat.ltb_spec (length (survivors oldGrid)) 2) as [Hlt | _];
    [lia |].
  cbn [bind]. unfold for_range. rewrite size_nat.
  assert (Hf : length (firstn (length oldGrid) prices) = length oldGrid).
  { rewrite length_firstn. lia. }
  pose proof (assign_loop
                (CubicSpline (map ln (survivors oldGrid))
                   (survivorPrices prices oldGrid))
                newGrid oldGrid (firstn (length oldGrid) prices) []
                (skipn (length oldGrid) prices)) as Hloop.
  cbn [app length] in Hloop.
  rewrite (firstn_skipn (length oldGrid) prices), Hf in Hloop.
  apply Hloop; [lia | exact Hng | lia].
Qed.

Lemma movePrices_degenerate (prices newGrid oldGrid : Array) :
  (length oldGrid <= length prices)%nat ->
  (length (survivors oldGrid) < 2)%nat ->
  movePricesBeforeExDiv CubicSpline prices newGrid oldGrid
  = Raise DegenerateGridError.
Proof.
  intros Hp Hs.
  unfold movePricesBeforeExDiv. rewrite (filtered_Ok _ _ Hp). cbn [bind].
  unfold CubicSpline_new. rewrite length_map.
  destruct (Nat.ltb_spec (length (survivors oldGrid)) 2) as [_ | Hge];
    [reflexivity | lia].
Qed.

(** The conditions under which the transfer ends normally. *)
Lemma movePrices_Ok_inv (prices newGrid oldGrid out : Array) :
  movePricesBeforeExDiv CubicSpline prices newGrid oldGrid = Ok out ->
  (length oldGrid <= length prices)%nat
  /\ (length oldGrid <= length newGrid)%nat
  /\ (2 <= length (survivors oldGrid))%nat
  /\ out = transferred CubicSpline prices newGrid oldGrid.
Proof.
  intros H.
  assert (Hp : (length oldGrid <= length prices)%nat).
  { unfold movePricesBeforeExDiv in H. apply bind_Ok_inv in H.
    destruct H as [r [Hr _]]. exact (filtered_Ok_inv _ _ _ Hr). }
  assert (Hs : (2 <= length (survivors oldGrid))%nat).
  { destruct (Nat.lt_ge_cases (length (survivors oldGrid)) 2) as [Hlt | Hge];
      [| exact Hge].
    rewrite (movePrices_degenerate _ newGrid _ Hp Hlt) in H.
    discriminate H. }
  pose proof (survivors_length_le oldGrid) as Hle.
  assert (Hng : (length oldGrid <= length newGrid)%nat).
  { unfold movePricesBeforeExDiv in H. rewrite (filtered_Ok _ _ Hp) in H.
    cbn [bind] in H. apply bind_Ok_inv in H.
    destruct H as [sp [_ Hloop]].
    unfold for_range in Hloop. rewrite size_nat in Hloop.
    destruct (for_loop_Ok_body _ _ _ _ _ Hloop
                (Z.of_nat (length oldGrid - 1))) as [s1 [s2 Hb]]; [lia |].
    unfold assign in Hb. apply bind_Ok_inv in Hb.
    destruct Hb as [x [Hx _]].
    unfold logNewGridPoint in Hx. apply bind_Ok_inv in Hx.
    destruct Hx as [jG [HjG _]].
    unfold jGrid in HjG. apply bind_Ok_inv in HjG.
    destruct HjG as [a [Ha _]]. apply Array_get_Ok_inv in Ha.
    unfold size in Ha. lia. }
  repeat split; try assumption.
  rewrite (movePrices_Ok _ _ _ Hp Hng Hs) in H. congruence.
Qed.

Lemma transferred_length (prices newGrid oldGrid : Array) :
  (length oldGrid <= length prices)%nat ->
  length (transferred CubicSpline prices newGrid oldGrid) = length prices.
Proof.
  intros H. unfold transferred.
  rewrite length_app, length_map, length_seq, length_skipn. lia.
Qed.

Lemma transferred_nth (prices newGrid oldGrid : Array) (j : nat) :
  (j < length oldGrid)%nat ->
  nth j (transferred CubicSpline prices newGrid oldGrid) 0
  = priceSplineOf CubicSpline prices oldGrid (spec_point newGrid oldGrid j).
Proof.
  intros H. unfold transferred.
  rewrite app_nth1 by (rewrite length_map, length_seq; exact H).
  apply nth_map_seq. exact H.
Qed.

Lemma transferred_nth_beyond (prices newGrid oldGrid : Array) (j : nat) :
  (length oldGrid <= j)%nat ->
  nth j (transferred CubicSpline prices newGrid oldGrid) 0 = nth j prices 0.
Proof.
  intros H. unfold transferred.
  rewrite app_nth2 by (rewrite length_map, length_seq; exact H).
  rewrite length_map, length_seq, nth_skipn. f_equal. lia.
Qed.

End PriceTransferProperties.

(** *** Deciding comparisons of given reals *)

Ltac real_cases :=
  repeat match goal with
  | |- context [Rgt_dec ?a ?b] => destruct (Rgt_dec a b); try lra
  | |- context [Rge_dec ?a ?b] => destruct (Rge_dec a b); try lra
  | |- context [Rlt_dec ?a ?b] => destruct (Rlt_dec a b); try lra
  | |- context [Rle_dec ?a ?b] => destruct (Rle_dec a b); try lra
  end.

Lemma positive_true (g : R) : positive g = true <-> g > 0.
Proof.
  unfold positive. destruct (Rgt_dec g 0); split; intros H;
    try reflexivity; try assumption; try discriminate; lra.
Qed.

Lemma survivors_positive (oldGrid : Array) (g : R) :
  In g (survivors oldGrid) -> g > 0.
Proof.
  unfold survivors. intros H. apply filter_In in H.
  apply positive_true. apply H.
Qed.

Lemma survivors_all (grid : Array) :
  Forall (fun g => g > 0) grid -> survivors grid = grid.
Proof.
  induction 1 as [| g grid Hg _ IH]; [reflexivity |].
  unfold survivors in *. cbn [filter].
  apply positive_true in Hg. now rewrite Hg, IH.
Qed.

Lemma survivorPrices_all (grid : Array) :
  Forall (fun g => g > 0) grid ->
  forall prices, length prices = length grid ->
    survivorPrices prices grid = prices.
Proof.
  induction 1 as [| g grid Hg _ IH]; intros [| p prices] Hlen;
    try discriminate Hlen; [reflexivity |].
  unfold survivorPrices in *. cbn [combine filter fst].
  apply positive_true in Hg. rewrite Hg. cbn [map snd].
  f_equal. apply IH. simpl in Hlen. lia.
Qed.

(** *** The reference interpolant *)

Lemma increasing_tail (x : R) (xs : list R) :
  increasing (x :: xs) -> increasing xs.
Proof.
  intros H i j Hij. apply (H (S i) (S j)). simpl. lia.
Qed.

Lemma linearInterpolation_interpolates :
  forall xs ys : list R,
    increasing xs -> length xs = length ys ->
    interpolates (linearInterpolation xs ys) xs ys.
Proof.
  induction xs as [| x0 xs IH]; intros ys Hinc Hlen i Hi.
  - simpl in Hi. lia.
  - destruct ys as [| y0 ys]; [discriminate Hlen |].
    destruct xs as [| x1 xs].
    + destruct i as [| i]; [reflexivity | simpl in Hi; lia].
    + destruct ys as [| y1 ys]; [discriminate Hlen |].
      assert (H01 : x0 < x1) by (apply (Hinc 0%nat 1%nat); simpl; lia).
      destruct i as [| [| i]].
      * cbn [nth linearInterpolation].
        destruct (Rle_dec x0 x1) as [_ | Hn]; [| lra].
        replace (x0 - x0) with 0 by lra. unfold Rdiv. lra.
      * cbn [nth linearInterpolation].
        destruct (Rle_dec x1 x1) as [_ | Hn]; [| lra].
        field. lra.
      * assert (H1i : x1 < nth (S (S i)) (x0 :: x1 :: xs) 0).
        { apply (Hinc 1%nat (S (S i))). simpl in *. lia. }
        destruct xs as [| x2 xs]; [simpl in Hi; lia |].
        change (linearInterpolation (x0 :: x1 :: x2 :: xs) (y0 :: y1 :: ys)
                  (nth (S (S i)) (x0 :: x1 :: x2 :: xs) 0))
          with (if Rle_dec (nth (S (S i)) (x0 :: x1 :: x2 :: xs) 0) x1
                then y0 + (y1 - y0)
                     * ((nth (S (S i)) (x0 :: x1 :: x2 :: xs) 0 - x0)
                        / (x1 - x0))
                else linearInterpolation (x1 :: x2 :: xs) (y1 :: ys)
                       (nth (S i) (x1 :: x2 :: xs) 0)).
        destruct (Rle_dec _ x1) as [Hle | _]; [lra |].
        apply (IH (y1 :: ys)).
        -- exact (increasing_tail _ _ Hinc).
        -- simpl in Hlen. simpl. lia.
        -- simpl in Hi. simpl. lia.
Qed.

Lemma increasing_map_ln (grid : Array) :
  increasing grid -> Forall (fun g => g > 0) grid ->
  increasing (map ln grid).
Proof.
  intros Hinc Hpos i j Hij. rewrite length_map in Hij.
  rewrite (nth_indep (map ln grid) 0 (ln 0))
    by (rewrite length_map; lia).
  rewrite (nth_indep (map ln grid) 0 (ln 0) (n := j))
    by (rewrite length_map; lia).
  rewrite !map_nth. apply ln_increasing.
  - rewrite Forall_forall in Hpos. apply Hpos. apply nth_In. lia.
  - apply Hinc. exact Hij.
Qed.

(** *** Claims about the price transfer *)

Lemma survivors_scenario : survivors [1; 10; 100] = [1; 10; 100].
Proof. apply survivors_all. repeat constructor; lra. Qed.

Lemma spec_point_eq (newGrid oldGrid : Array) (j : nat) :
  spec_point newGrid oldGrid j
  = ln (nth (if Rlt_dec (nth j newGrid 0)
                        (nth (length oldGrid - 2) oldGrid 0)
             then j else (length oldGrid - 2)%nat) newGrid 0).
Proof.
  unfold spec_point, spec_jGrid. destruct (Rlt_dec _ _); reflexivity.
Qed.

(** C1, as amended.  When the transfer ends normally, then for every
    output index [j] below [len(oldGrid)] (all of them when the price
    array has the length of the old grid) the spline built from the
    filtered points is evaluated at [ln(newGrid[jGrid])], where
    [jGrid = j] when [newGrid[j] < oldGrid[len(oldGrid)-2]] and
    [jGrid = len(oldGrid)-2] otherwise: the cap comes from the length of
    the old grid, the value from the new grid.  The value of the spline
    there is the output price at index [j].  An output price at an index
    from [len(oldGrid)] on is the input price at that index. *)
Theorem transfer_evaluates_at_clamped_point
    (CubicSpline : list R -> list R -> R -> R)
    (prices newGrid oldGrid out : Array) :
  movePricesBeforeExDiv CubicSpline prices newGrid oldGrid = Ok out ->
  exists logOldGrid tmpPrices,
    filtered prices oldGrid = Ok (logOldGrid, tmpPrices)
    /\ length out = length prices
    /\ (forall j : nat, (j < length oldGrid)%nat ->
          let jG := if Rlt_dec (nth j newGrid 0)
                               (nth (length oldGrid - 2) oldGrid 0)
                    then j else (length oldGrid - 2)%nat in
          jGrid newGrid oldGrid (Z.of_nat j) = Ok (Z.of_nat jG)
          /\ logNewGridPoint newGrid oldGrid (Z.of_nat j)
             = Ok (ln (nth jG newGrid 0))
          /\ nth j out 0
             = CubicSpline logOldGrid tmpPrices (ln (nth jG newGrid 0)))
    /\ (forall j : nat, (length oldGrid <= j)%nat ->
          nth j out 0 = nth j prices 0).
Proof.
  intros H. apply movePrices_Ok_inv in H.
  destruct H as [Hp [Hng [Hs Hout]]].
  pose proof (survivors_length_le oldGrid) as Hle.
  exists (map ln (survivors oldGrid)), (survivorPrices prices oldGrid).
  split; [apply filtered_Ok; exact Hp |].
  split; [subst out; apply transferred_length; exact Hp |].
  split.
  - intros j Hj jG. subst jG. rewrite <- spec_point_eq.
    split; [| split].
    + rewrite jGrid_spec by lia. unfold spec_jGrid.
      destruct (Rlt_dec _ _); reflexivity.
    + apply logNewGridPoint_spec; lia.
    + subst out. rewrite transferred_nth by exact Hj. reflexivity.
  - intros j Hj. subst out. apply transferred_nth_beyond. exact Hj.
Qed.

Lemma transfer_evaluates_at_clamped_point_witness :
  exists out,
    movePricesBeforeExDiv linearInterpolation [0; 5; 12] [2; 50; 60]
      [1; 10; 100] = Ok out
    /\ jGrid [2; 50; 60] [1; 10; 100] 2 = Ok 1%Z
    /\ nth 2 out 0
       = linearInterpolation [ln 1; ln 10; ln 100] [0; 5; 12] (ln 50).
Proof.
  assert (Hrun : movePricesBeforeExDiv linearInterpolation [0; 5; 12]
                   [2; 50; 60] [1; 10; 100]
                 = Ok (transferred linearInterpolation [0; 5; 12]
                         [2; 50; 60] [1; 10; 100])).
  { apply movePrices_Ok; [simpl; lia | simpl; lia |].
    rewrite survivors_scenario. simpl. lia. }
  exists (transferred linearInterpolation [0; 5; 12] [2; 50; 60]
            [1; 10; 100]).
  split; [exact Hrun |].
  destruct (transfer_evaluates_at_clamped_point _ _ _ _ _ Hrun)
    as [logs [tmp [Hf [_ [Hj _]]]]].
  rewrite filtered_Ok in Hf by (simpl; lia).
  rewrite survivors_scenario in Hf.
  assert (Hsp : survivorPrices [0; 5; 12] [1; 10; 100] = [0; 5; 12]).
  { apply survivorPrices_all; [repeat constructor; lra | reflexivity]. }
  rewrite Hsp in Hf. injection Hf as <- <-.
  specialize (Hj 2%nat). cbn [length nth Nat.sub] in Hj.
  destruct (Rlt_dec 60 10) as [Hlt | _]; [lra |].
  destruct Hj as [H1 [_ H3]]; [lia |]. split; [exact H1 | exact H3].
Defined.

Lemma increasing_1_10_100 : increasing [1; 10; 100].
Proof.
  intros i j Hij. simpl in Hij.
  destruct i as [| [| [| i]]]; destruct j as [| [| [| j]]];
    simpl; try lia; lra.
Qed.

(** C1, as stated, fails at an output index that the loop does not reach:
    with four prices and a new grid of four points on an old grid of
    three, the transfer ends normally and the fourth output price is the
    fourth input price, 99, while the spline at the clamped point
    [ln(newGrid[1]) = ln 10], a knot, is 5. *)
Lemma transfer_evaluates_at_clamped_point_counterexample :
  ~ (forall (CubicSpline : list R -> list R -> R -> R)
            (prices newGrid oldGrid out logOldGrid tmpPrices : Array),
       movePricesBeforeExDiv CubicSpline prices newGrid oldGrid = Ok out ->
       filtered prices oldGrid = Ok (logOldGrid, tmpPrices) ->
       forall j : nat, (j < length out)%nat ->
         nth j out 0
         = CubicSpline logOldGrid tmpPrices
             (ln (nth (if Rlt_dec (nth j newGrid 0)
                                  (nth (length oldGrid - 2) oldGrid 0)
                       then j else (length oldGrid - 2)%nat) newGrid 0))).
Proof.
  intros Hclaim.
  assert (Hrun : movePricesBeforeExDiv linearInterpolation [0; 5; 12; 99]
                   [2; 10; 60; 70] [1; 10; 100]
                 = Ok (transferred linearInterpolation [0; 5; 12; 99]
                         [2; 10; 60; 70] [1; 10; 100])).
  { apply movePrices_Ok; [simpl; lia | simpl; lia |].
    rewrite survivors_scenario. simpl. lia. }
  assert (Hsp : survivorPrices [0; 5; 12; 99] [1; 10; 100] = [0; 5; 12]).
  { unfold survivorPrices, positive. cbn [combine filter fst].
    real_cases. reflexivity. }
  assert (Hf : filtered [0; 5; 12; 99] [1; 10; 100]
               = Ok (map ln [1; 10; 100], [0; 5; 12])).
  { rewrite filtered_Ok by (simpl; lia).
    now rewrite survivors_scenario, Hsp. }
  pose proof (Hclaim _ _ _ _ _ _ _ Hrun Hf 3%nat) as H.
  rewrite transferred_length in H by (simpl; lia).
  rewrite transferred_nth_beyond in H by (simpl; lia).
  cbn [length nth Nat.sub] in H.
  destruct (Rlt_dec 70 10) as [Hlt | _]; [lra |].
  assert (Hknot : linearInterpolation (map ln [1; 10; 100]) [0; 5; 12]
                    (ln 10) = 5).
  { apply (linearInterpolation_interpolates (map ln [1; 10; 100])
             [0; 5; 12]) with (i := 1%nat).
    - apply increasing_map_ln; [exact increasing_1_10_100 |].
      repeat constructor; lra.
    - reflexivity.
    - simpl. lia. }
  rewrite Hknot in H. assert (99 = 5) by (apply H; lia). lra.
Qed.











Lemma ln_monotone (x y : R) : 0 < x -> x <= y -> ln x <= ln y.
Proof.
  intros Hx [Hlt | ->]; [left; apply ln_increasing; assumption | right; reflexivity].
Qed.

Lemma spec_jGrid_same_grid (grid : Array) (j : nat) :
  increasing grid -> (2 <= length grid)%nat -> (j < length grid)%nat ->
  spec_jGrid grid grid j = Nat.min j (length grid - 2).
Proof.
  intros Hinc H2 Hj. unfold spec_jGrid.
  destruct (Nat.lt_ge_cases j (length grid - 2)) as [Hlt | Hge].
  - rewrite Nat.min_l by lia.
    destruct (Rlt_dec _ _) as [_ | Hn]; [reflexivity |].
    exfalso. apply Hn. apply Hinc. lia.
  - rewrite Nat.min_r by lia.
    destruct (Rlt_dec _ _) as [Hl | _]; [| reflexivity].
    exfalso. destruct (Nat.eq_dec j (length grid - 2)) as [-> | Hne];
      [lra |].
    assert (nth (length grid - 2) grid 0 < nth j grid 0)
      by (apply Hinc; lia).
    lra.
Qed.

(** The transfer of prices from a grid onto itself. *)
Lemma transfer_same_grid
    (CubicSpline : list R -> list R -> R -> R) (prices grid : Array) :
  increasing grid ->
  Forall (fun g => g > 0) grid ->
  length prices = length grid ->
  (2 <= length grid)%nat ->
  interpolates (CubicSpline (map ln grid) prices) (map ln grid) prices ->
  exists out,
    movePricesBeforeExDiv CubicSpline prices grid grid = Ok out
    /\ length out = length prices
    /\ forall j : nat, (j < length grid)%nat ->
         nth j out 0 = nth (Nat.min j (length grid - 2)) prices 0.
Proof.
  intros Hinc Hpos Hlen H2 Hint.
  exists (transferred CubicSpline prices grid grid).
  split; [| split].
  - apply movePrices_Ok; [lia | lia |].
    rewrite (survivors_all _ Hpos). exact H2.
  - apply transferred_length. lia.
  - intros j Hj. rewrite transferred_nth by exact Hj.
    unfold priceSplineOf, spec_point.
    rewrite (survivors_all _ Hpos), (survivorPrices_all _ Hpos _ Hlen).
    rewrite (spec_jGrid_same_grid _ _ Hinc H2 Hj).
    set (k := Nat.min j (length grid - 2)).
    assert (Hk : (k < length grid)%nat) by (unfold k; lia).
    rewrite <- (Hint k) by (rewrite length_map; exact Hk).
    f_equal.
    rewrite (nth_indep (map ln grid) 0 (ln 0))
      by (rewrite length_map; exact Hk).
    now rewrite map_nth.
Qed.

(** C4, as amended.  When the transfer ends normally, its result has the
    length of the price array it was given, and the evaluation loop
    covers exactly the indices [0..len(oldGrid)-1]: the elements at these
    indices are assigned the value of the spline, an element of the price
    array behind them keeps its value.  When the price array and the two
    grids have one length, the result has the length of the new grid and
    every element of it is assigned. *)
Theorem transfer_output_indices
    (CubicSpline : list R -> list R -> R -> R)
    (prices newGrid oldGrid out : Array) :
  movePricesBeforeExDiv CubicSpline prices newGrid oldGrid = Ok out ->
  length out = length prices
  /\ (length oldGrid <= length prices)%nat
  /\ (length oldGrid <= length newGrid)%nat
  /\ (forall j : nat, (j < length oldGrid)%nat ->
        exists x, logNewGridPoint newGrid oldGrid (Z.of_nat j) = Ok x
          /\ nth j out 0 = priceSplineOf CubicSpline prices oldGrid x)
  /\ (forall j : nat, (length oldGrid <= j)%nat ->
        nth j out 0 = nth j prices 0)
  /\ (length prices = length oldGrid -> length newGrid = length oldGrid ->
      length out = length newGrid).
Proof.
  intros H. apply movePrices_Ok_inv in H.
  destruct H as [Hp [Hng [Hs ->]]].
  pose proof (survivors_length_le oldGrid) as Hle.
  rewrite (transferred_length _ _ _ _ Hp).
  repeat split; try assumption.
  - intros j Hj. exists (spec_point newGrid oldGrid j).
    split; [apply logNewGridPoint_spec; lia |].
    apply transferred_nth. exact Hj.
  - intros j Hj. apply transferred_nth_beyond. exact Hj.
  - intros H1 H2. congruence.
Qed.

Lemma transfer_output_indices_witness :
  exists out,
    movePricesBeforeExDiv linearInterpolation [0; 5; 12] [2; 50; 60]
      [1; 10; 100] = Ok out
    /\ length out = length [2; 50; 60].
Proof.
  assert (Hrun : movePricesBeforeExDiv linearInterpolation [0; 5; 12]
                   [2; 50; 60] [1; 10; 100]
                 = Ok (transferred linearInterpolation [0; 5; 12]
                         [2; 50; 60] [1; 10; 100])).
  { apply movePrices_Ok; [simpl; lia | simpl; lia |].
    rewrite survivors_scenario. simpl. lia. }
  eexists. split; [exact Hrun |].
  apply (transfer_output_indices _ _ _ _ _ Hrun); reflexivity.
Defined.

(** C4, as stated, fails: with a new grid of four points and an old grid
    and a price array of three, every access is inside its array, the
    transfer ends normally, and its result has three elements. *)
Lemma transfer_output_length_counterexample :
  ~ (forall (CubicSpline : list R -> list R -> R -> R)
            (prices newGrid oldGrid out : Array),
       movePricesBeforeExDiv CubicSpline prices newGrid oldGrid = Ok out ->
       length out = length newGrid).
Proof.
  intros Hclaim.
  assert (Hrun : movePricesBeforeExDiv linearInterpolation [0; 5; 12]
                   [2; 50; 60; 70] [1; 10; 100]
                 = Ok (transferred linearInterpolation [0; 5; 12]
                         [2; 50; 60; 70] [1; 10; 100])).
  { apply movePrices_Ok; [simpl; lia | simpl; lia |].
    rewrite survivors_scenario. simpl. lia. }
  apply Hclaim in Hrun. rewrite transferred_length in Hrun by (simpl; lia).
  discriminate Hrun.
Qed.

(** C9, as amended.  For an index [j] of the loop, the point
    [ln(newGrid[jGrid])] at which the spline is evaluated lies between the
    logarithm of the first old-grid point that passed the filter and the
    logarithm of the second-to-last old-grid point, provided that no point
    of the new grid that the loop can read lies below that first point and
    that [newGrid[len(oldGrid)-2] <= oldGrid[len(oldGrid)-2]]. *)
Theorem transfer_point_within_domain
    (newGrid oldGrid : Array) (j : nat) (g0 : R) (rest : list R) :
  (2 <= length oldGrid)%nat ->
  (length oldGrid <= length newGrid)%nat ->
  (j < length oldGrid)%nat ->
  survivors oldGrid = g0 :: rest ->
  (forall i : nat, (i < length oldGrid)%nat -> g0 <= nth i newGrid 0) ->
  nth (length oldGrid - 2) newGrid 0 <= nth (length oldGrid - 2) oldGrid 0 ->
  exists x,
    logNewGridPoint newGrid oldGrid (Z.of_nat j) = Ok x
    /\ ln g0 <= x <= ln (nth (length oldGrid - 2) oldGrid 0).
Proof.
  intros H2 Hng Hj Hs Hlow Hup.
  exists (spec_point newGrid oldGrid j).
  split; [apply logNewGridPoint_spec; assumption |].
  assert (Hg0 : g0 > 0).
  { apply (survivors_positive oldGrid). rewrite Hs. left. reflexivity. }
  pose proof (spec_jGrid_bound newGrid oldGrid j H2 Hj) as Hb.
  pose proof (Hlow _ Hb) as Hlo.
  unfold spec_point. split.
  - apply ln_monotone; lra.
  - apply ln_monotone; [lra |].
    unfold spec_jGrid in *. destruct (Rlt_dec _ _) as [Hlt | _]; lra.
Qed.

Lemma transfer_point_within_domain_witness :
  exists x,
    logNewGridPoint [2; 8; 60] [1; 10; 100] 2 = Ok x
    /\ ln 1 <= x <= ln 10.
Proof.
  apply (transfer_point_within_domain [2; 8; 60] [1; 10; 100] 2 1 [10; 100]).
  - simpl. lia.
  - simpl. lia.
  - simpl. lia.
  - exact survivors_scenario.
  - intros [| [| [| i]]] Hi; simpl in *; try lra. lia.
  - simpl. lra.
Defined.

(** C9, as stated, fails on both sides: a new-grid point below the first
    usable old-grid point is used as it is, and an index that is clamped
    reads the new grid at [len(oldGrid)-2], where the new grid may lie
    above the old one. *)
Lemma transfer_point_outside_domain_counterexample :
  survivors [1; 10; 100] = [1; 10; 100]
  /\ logNewGridPoint [1/2; 50; 200] [1; 10; 100] 0 = Ok (ln (1/2))
  /\ ~ (ln 1 <= ln (1/2))
  /\ logNewGridPoint [1/2; 50; 200] [1; 10; 100] 1 = Ok (ln 50)
  /\ ~ (ln 50 <= ln 10).
Proof.
  split; [exact survivors_scenario |].
  split; [| split; [| split]].
  - change 0%Z with (Z.of_nat 0).
    rewrite logNewGridPoint_spec by (simpl; lia).
    unfold spec_point, spec_jGrid. cbn [length nth Nat.sub].
    destruct (Rlt_dec (1/2) 10) as [_ | Hn]; [reflexivity | lra].
  - assert (ln (1/2) < ln 1) by (apply ln_increasing; lra). lra.
  - change 1%Z with (Z.of_nat 1).
    rewrite logNewGridPoint_spec by (simpl; lia).
    unfold spec_point, spec_jGrid. cbn [length nth Nat.sub].
    destruct (Rlt_dec 50 10) as [Hl | _]; [lra | reflexivity].
  - assert (ln 10 < ln 50) by (apply ln_increasing; lra). lra.
Qed.

(** C3, as amended.  For an increasing, positive grid of at least two
    points, a price array of the same length and a spline through its
    knots, the transfer from the grid onto itself returns the prices
    unchanged at every index but the last; at the last index it returns
    the price of the second-to-last index. *)
Theorem transfer_same_grid_roundtrip
    (CubicSpline : list R -> list R -> R -> R) (prices grid : Array) :
  increasing grid ->
  Forall (fun g => g > 0) grid ->
  length prices = length grid ->
  (2 <= length grid)%nat ->
  interpolates (CubicSpline (map ln grid) prices) (map ln grid) prices ->
  exists out,
    movePricesBeforeExDiv CubicSpline prices grid grid = Ok out
    /\ length out = length prices
    /\ (forall j : nat, (j < length grid - 1)%nat ->
          nth j out 0 = nth j prices 0)
    /\ nth (length grid - 1) out 0 = nth (length grid - 2) prices 0.
Proof.
  intros Hinc Hpos Hlen H2 Hint.
  destruct (transfer_same_grid CubicSpline prices grid Hinc Hpos Hlen H2 Hint)
    as [out [Hrun [Hl Hnth]]].
  exists out. repeat split; try assumption.
  - intros j Hj. rewrite Hnth by lia. f_equal. lia.
  - rewrite Hnth by lia. f_equal. lia.
Qed.

Lemma increasing_123 : increasing [1; 2; 3].
Proof.
  intros i j Hij. simpl in Hij.
  destruct i as [| [| [| i]]]; destruct j as [| [| [| j]]];
    simpl; try lia; lra.
Qed.

Lemma positive_123 : Forall (fun g => g > 0) [1; 2; 3].
Proof. repeat constructor; lra. Qed.

Lemma interpolates_123 :
  interpolates (linearInterpolation (map ln [1; 2; 3]) [0; 5; 12])
    (map ln [1; 2; 3]) [0; 5; 12].
Proof.
  apply linearInterpolation_interpolates; [| reflexivity].
  apply increasing_map_ln; [exact increasing_123 | exact positive_123].
Qed.

Lemma transfer_same_grid_roundtrip_witness :
  exists out,
    movePricesBeforeExDiv linearInterpolation [0; 5; 12] [1; 2; 3] [1; 2; 3]
    = Ok out
    /\ nth 0 out 0 = 0 /\ nth 1 out 0 = 5 /\ nth 2 out 0 = 5.
Proof.
  destruct (transfer_same_grid_roundtrip linearInterpolation [0; 5; 12]
              [1; 2; 3] increasing_123 positive_123 eq_refl
              (le_S _ _ (le_n 2)) interpolates_123)
    as [out [Hrun [_ [Hj Hlast]]]].
  exists out. split; [exact Hrun |].
  split; [| split].
  - apply (Hj 0%nat). simpl. lia.
  - apply (Hj 1%nat). simpl. lia.
  - exact Hlast.
Defined.

(** C3, as stated, fails at the last index: on the grid [1, 2, 3] the
    prices [0, 5, 12] come back as [0, 5, 5]. *)
Lemma transfer_same_grid_roundtrip_counterexample :
  ~ (forall (CubicSpline : list R -> list R -> R -> R)
            (prices grid out : Array),
       increasing grid ->
       Forall (fun g => g > 0) grid ->
       length prices = length grid ->
       interpolates (CubicSpline (map ln grid) prices) (map ln grid) prices ->
       movePricesBeforeExDiv CubicSpline prices grid grid = Ok out ->
       forall j : nat, (j < length grid)%nat ->
         nth j out 0 = nth j prices 0).
Proof.
  intros Hclaim.
  destruct (transfer_same_grid linearInterpolation [0; 5; 12] [1; 2; 3]
              increasing_123 positive_123 eq_refl (le_S _ _ (le_n 2))
              interpolates_123)
    as [out [Hrun [_ Hnth]]].
  pose proof (Hclaim linearInterpolation [0; 5; 12] [1; 2; 3] out
                increasing_123 positive_123 eq_refl interpolates_123 Hrun
                2%nat) as H.
  rewrite Hnth in H by (simpl; lia).
  simpl in H. assert (5 = 12) by (apply H; lia). lra.
Qed.

(** *** Construction *)

Lemma addElements_one (x : R) : addElements [x] = x.
Proof. unfold addElements. simpl. lra. Qed.

Section ConstructionProperties.

Variables Operator Model : Type.
Variable MultiPeriodOption_new :
  BSMArguments -> R -> list Time -> result (MultiPeriodOption Operator Model).



End ConstructionProperties.


(** *** The intermediate step *)

Lemma Rdiv_by_ratio (c s : R) : c / (s / c) = c * c / s.
Proof. unfold Rdiv. rewrite Rinv_mult, Rinv_inv. ring. Qed.

Lemma Array_plus_length (a : Array) (x : R) :
  length (Array_plus a x) = length a.
Proof. unfold Array_plus. apply length_map. Qed.

Section StepProperties.

Variables Operator Model : Type.
Variable fd : Machinery Operator Model.
Variable CubicSpline : list R -> list R -> R -> R.

Implicit Types o : DividendOption Operator Model.

(** [setGridLimits] stores the center and touches no array. *)
Lemma setGridLimits_frame (c : R) (t : Time) o :
  center_ (setGridLimits fd c t o) = c
  /\ dividends_ (setGridLimits fd c t o) = dividends_ o
  /\ dates_ (setGridLimits fd c t o) = dates_ o
  /\ grid_ (setGridLimits fd c t o) = grid_ o
  /\ prices_ (setGridLimits fd c t o) = prices_ o
  /\ controlPrices_ (setGridLimits fd c t o) = controlPrices_ o.
Proof.
  unfold setGridLimits. destruct (gridLimits fd c t o) as [lo hi].
  repeat split.
Qed.

Lemma setGridLimits_limits (c : R) (t : Time) o :
  (sMin_ (setGridLimits fd c t o), sMax_ (setGridLimits fd c t o))
  = gridLimits fd c t o.
Proof.
  unfold setGridLimits. destruct (gridLimits fd c t o) as [lo hi].
  reflexivity.
Qed.

(** Lines 130-135 in one expression. *)
Lemma updateLimits_Ok (step : Z) o (d : R) (t : Time) :
  Array_get (dividends_ o) step = Ok d ->
  Array_get (dates_ o) step = Ok t ->
  updateLimits fd step o
  = Ok (let current := setGridLimits fd (center_ o + d) t o in
        if Rgt_dec (sMin_ o + d) (sMin_ current)
        then set_sMax (center_ current / ((sMin_ o + d) / center_ current))
               (set_sMin (sMin_ o + d) current)
        else current).
Proof.
  intros Hd Ht. unfold updateLimits. rewrite Hd. cbn [bind].
  rewrite Ht. cbn [bind]. cbv zeta.
  destruct (Rgt_dec _ _); reflexivity.
Qed.

Lemma updateLimits_frame (step : Z) o o1 (d : R) :
  Array_get (dividends_ o) step = Ok d ->
  updateLimits fd step o = Ok o1 ->
  center_ o1 = center_ o + d
  /\ dividends_ o1 = dividends_ o
  /\ dates_ o1 = dates_ o
  /\ grid_ o1 = grid_ o
  /\ prices_ o1 = prices_ o
  /\ controlPrices_ o1 = controlPrices_ o.
Proof.
  intros Hd H.
  destruct (Array_get (dates_ o) step) as [t | e] eqn:Ht.
  - rewrite (updateLimits_Ok _ _ _ _ Hd Ht) in H. injection H as <-.
    destruct (setGridLimits_frame (center_ o + d) t o)
      as [Hc [H1 [H2 [H3 [H4 H5]]]]].
    cbv zeta. destruct (Rgt_dec _ _); repeat split; assumption.
  - unfold updateLimits in H. rewrite Hd in H. cbn [bind] in H.
    rewrite Ht in H. discriminate H.
Qed.

(** The states an intermediate step goes through. *)
Lemma step_Ok_inv (step : Z) o o' :
  executeIntermediateStep fd CubicSpline step o = Ok o' ->
  exists (d : R) (t : Time) o1 o3 o4,
    Array_get (dividends_ o) step = Ok d
    /\ Array_get (dates_ o) step = Ok t
    /\ updateLimits fd step o = Ok o1
    /\ movePrimary CubicSpline (Array_plus (grid_ o) d)
         (initializeInitialCondition fd (initializeGrid fd o1)) = Ok o3
    /\ moveControl CubicSpline (Array_plus (grid_ o) d) o3 = Ok o4
    /\ applyStepCondition step (rebuildOperator fd o4) = Ok o'.
Proof.
  intros H. unfold executeIntermediateStep in H.
  apply bind_Ok_inv in H. destruct H as [o1 [H1 H]].
  apply bind_Ok_inv in H. destruct H as [[oldGrid o2] [H2 H]].
  apply bind_Ok_inv in H. destruct H as [o3 [H3 H]].
  apply bind_Ok_inv in H. destruct H as [o4 [H4 H]].
  assert (Hd : exists d, Array_get (dividends_ o) step = Ok d).
  { unfold updateLimits in H1. apply bind_Ok_inv in H1.
    destruct H1 as [d [Hd _]]. exists d. exact Hd. }
  destruct Hd as [d Hd].
  assert (Ht : exists t, Array_get (dates_ o) step = Ok t).
  { unfold updateLimits in H1. rewrite Hd in H1. cbn [bind] in H1.
    apply bind_Ok_inv in H1. destruct H1 as [t [Ht _]].
    exists t. exact Ht. }
  destruct Ht as [t Ht].
  destruct (updateLimits_frame _ _ _ _ Hd H1) as [_ [Hdiv [_ [Hg _]]]].
  unfold rebuildGrid in H2. rewrite Hdiv, Hd in H2. cbn [bind] in H2.
  injection H2 as <- <-. rewrite Hg in H3, H4.
  exists d, t, o1, o3, o4. repeat split; assumption.
Qed.

Lemma movePrimary_Ok_inv (oldGrid : Array) o o3 :
  movePrimary CubicSpline oldGrid o = Ok o3 ->
  exists p,
    movePricesBeforeExDiv CubicSpline (prices_ o) (grid_ o) oldGrid = Ok p
    /\ o3 = set_prices p o.
Proof.
  intros H. unfold movePrimary in H. apply bind_Ok_inv in H.
  destruct H as [p [Hp H]]. injection H as <-. exists p. split;
    [exact Hp | reflexivity].
Qed.

Lemma moveControl_Ok_inv (oldGrid : Array) o o4 :
  moveControl CubicSpline oldGrid o = Ok o4 ->
  exists c,
    movePricesBeforeExDiv CubicSpline (controlPrices_ o) (grid_ o) oldGrid
    = Ok c
    /\ o4 = set_controlPrices c o.
Proof.
  intros H. unfold moveControl in H. apply bind_Ok_inv in H.
  destruct H as [c [Hc H]]. injection H as <-. exists c. split;
    [exact Hc | reflexivity].
Qed.

Lemma applyStepCondition_Ok_inv (step : Z) o o' :
  applyStepCondition step o = Ok o' ->
  exists t,
    Array_get (dates_ o) step = Ok t
    /\ o' = set_prices (stepCondition_ o (prices_ o) t) o.
Proof.
  intros H. unfold applyStepCondition in H. apply bind_Ok_inv in H.
  destruct H as [t [Ht H]]. injection H as <-. exists t. split;
    [exact Ht | reflexivity].
Qed.

(** After lines 130-135 nothing writes the center or the limits. *)
Lemma step_limits_frame (step : Z) o o' :
  executeIntermediateStep fd CubicSpline step o = Ok o' ->
  exists o1,
    updateLimits fd step o = Ok o1
    /\ center_ o' = center_ o1
    /\ sMin_ o' = sMin_ o1
    /\ sMax_ o' = sMax_ o1.
Proof.
  intros H. apply step_Ok_inv in H.
  destruct H as [d [t [o1 [o3 [o4 [_ [_ [H1 [H3 [H4 H5]]]]]]]]]].
  apply movePrimary_Ok_inv in H3. destruct H3 as [p [_ ->]].
  apply moveControl_Ok_inv in H4. destruct H4 as [c [_ ->]].
  apply applyStepCondition_Ok_inv in H5. destruct H5 as [t' [_ ->]].
  exists o1. repeat split. exact H1.
Qed.

End StepProperties.

Section StepClaims.

Variables Operator Model : Type.
Variable fd : Machinery Operator Model.
Variable CubicSpline : list R -> list R -> R -> R.

Implicit Types o : DividendOption Operator Model.

(** When an intermediate step ends normally. *)
Lemma step_succeeds (step : Z) o (d : R) (t : Time) :
  Array_get (dividends_ o) step = Ok d ->
  Array_get (dates_ o) step = Ok t ->
  (forall x, (length (grid_ o) <= length (buildGrid fd x))%nat) ->
  (length (grid_ o) <= length (prices_ o))%nat ->
  (length (grid_ o) <= length (controlPrices_ o))%nat ->
  (2 <= length (survivors (Array_plus (grid_ o) d)))%nat ->
  exists o', executeIntermediateStep fd CubicSpline step o = Ok o'.
Proof.
  intros Hd Ht Hgrid Hp Hc Hs.
  unfold executeIntermediateStep.
  rewrite (updateLimits_Ok _ _ fd _ _ _ _ Hd Ht). cbn [bind].
  set (o1 := let current := setGridLimits fd (center_ o + d) t o in
             if Rgt_dec (sMin_ o + d) (sMin_ current)
             then set_sMax
                    (center_ current / ((sMin_ o + d) / center_ current))
                    (set_sMin (sMin_ o + d) current)
             else current).
  assert (Hfr : dividends_ o1 = dividends_ o /\ dates_ o1 = dates_ o
                /\ grid_ o1 = grid_ o /\ prices_ o1 = prices_ o
                /\ controlPrices_ o1 = controlPrices_ o).
  { apply (updateLimits_frame _ _ fd step o o1 d Hd).
    apply updateLimits_Ok; assumption. }
  destruct Hfr as [Hdiv [Hdat [Hg [Hpr Hco]]]].
  unfold rebuildGrid. rewrite Hdiv, Hd. cbn [bind]. rewrite Hg.
  unfold movePrimary.
  change (prices_ (initializeInitialCondition fd (initializeGrid fd o1)))
    with (prices_ o1).
  change (grid_ (initializeInitialCondition fd (initializeGrid fd o1)))
    with (buildGrid fd o1).
  rewrite Hpr.
  rewrite movePrices_Ok;
    [| rewrite Array_plus_length; exact Hp
     | rewrite Array_plus_length; apply Hgrid
     | exact Hs].
  cbn [bind]. unfold moveControl.
  match goal with
  | |- context [set_prices ?p ?x] =>
      change (controlPrices_ (set_prices p x)) with (controlPrices_ o1);
      change (grid_ (set_prices p x)) with (buildGrid fd o1)
  end.
  rewrite Hco.
  rewrite movePrices_Ok;
    [| rewrite Array_plus_length; exact Hc
     | rewrite Array_plus_length; apply Hgrid
     | exact Hs].
  cbn [bind]. unfold applyStepCondition.
  match goal with
  | |- context [rebuildOperator fd ?x] =>
      change (dates_ (rebuildOperator fd x)) with (dates_ o1)
  end.
  rewrite Hdat, Ht. cbn [bind]. eexists. reflexivity.
Qed.

(** C5.  At a dividend event the candidate lower limit is the old
    [sMin_] plus the dividend, and the current [sMin_] is the one
    [setGridLimits] has left.  If the candidate exceeds the current
    [sMin_], then [sMin_] becomes the candidate and [sMax_] becomes
    [center_/(sMin_/center_)], that is [center_^2/sMin_], for the updated
    center; if it does not, the event leaves [sMin_] and [sMax_] as
    they are then.  Where [setGridLimits] keeps the limits it finds,
    they are those from before the event. *)
Theorem dividend_event_limits (step : Z) o o' (d : R) (t : Time) :
  Array_get (dividends_ o) step = Ok d ->
  Array_get (dates_ o) step = Ok t ->
  executeIntermediateStep fd CubicSpline step o = Ok o' ->
  let current := setGridLimits fd (center_ o + d) t o in
  let candidate := sMin_ o + d in
  (candidate > sMin_ current ->
     sMin_ o' = candidate
     /\ sMax_ o' = center_ o' / (sMin_ o' / center_ o')
     /\ sMax_ o' = center_ o' * center_ o' / sMin_ o'
     /\ center_ o' = center_ o + d)
  /\ (~ candidate > sMin_ current ->
        sMin_ o' = sMin_ current /\ sMax_ o' = sMax_ current)
  /\ (gridLimits fd (center_ o + d) t o = (sMin_ o, sMax_ o) ->
      ~ candidate > sMin_ o ->
      sMin_ o' = sMin_ o /\ sMax_ o' = sMax_ o).
Proof.
  intros Hd Ht H current candidate.
  apply step_limits_frame in H.
  destruct H as [o1 [H1 [Hc [Hmin Hmax]]]].
  rewrite (updateLimits_Ok _ _ fd _ _ _ _ Hd Ht) in H1.
  injection H1 as H1. fold current candidate in H1. cbv zeta in H1.
  assert (Hcur : center_ current = center_ o + d)
    by apply setGridLimits_frame.
  assert (Hcases :
    (candidate > sMin_ current ->
       sMin_ o' = candidate
       /\ sMax_ o' = center_ o' / (sMin_ o' / center_ o')
       /\ sMax_ o' = center_ o' * center_ o' / sMin_ o'
       /\ center_ o' = center_ o + d)
    /\ (~ candidate > sMin_ current ->
          sMin_ o' = sMin_ current /\ sMax_ o' = sMax_ current)).
  { rewrite Hc, Hmin, Hmax. subst o1.
    destruct (Rgt_dec candidate (sMin_ current)) as [Hgt | Hngt].
    - split; [intros _ | intros Hn; contradiction].
      cbn [set_sMax set_sMin with_base base_ sMin_ sMax_ center_].
      rewrite <- Rdiv_by_ratio. repeat split. exact Hcur.
    - split; [intros Hgt; contradiction | intros _; split; reflexivity]. }
  destruct Hcases as [Hwiden Hkeep].
  split; [exact Hwiden |]. split; [exact Hkeep |].
  intros Hlim Hn.
  pose proof (setGridLimits_limits _ _ fd (center_ o + d) t o) as Hl.
  fold current in Hl. rewrite Hlim in Hl. injection Hl as Hl1 Hl2.
  rewrite <- Hl1, <- Hl2. apply Hkeep. rewrite Hl1. exact Hn.
Qed.

(** C6.  At the dividend event [k] the center after the event is the
    center before it plus [dividends[k]]; with the single dividend 5 it
    is the old center plus 5. *)
Theorem dividend_event_center (k : Z) o o' (d : R) :
  Array_get (dividends_ o) k = Ok d ->
  executeIntermediateStep fd CubicSpline k o = Ok o' ->
  center_ o' = center_ o + d
  /\ (dividends_ o = [5] -> center_ o' = center_ o + 5).
Proof.
  intros Hd H. apply step_limits_frame in H.
  destruct H as [o1 [H1 [Hc _]]].
  destruct (updateLimits_frame _ _ fd k o o1 d Hd H1) as [Hc1 _].
  assert (Hmain : center_ o' = center_ o + d) by congruence.
  split; [exact Hmain |].
  intros H5. rewrite H5 in Hd. apply Array_get_Ok_inv in Hd.
  destruct Hd as [Hk ->]. unfold size in Hk. simpl in Hk.
  replace k with 0%Z in Hmain by lia. exact Hmain.
Qed.

(** C8.  At a dividend event the step condition is applied to the
    primary price array: the application writes [prices_] and leaves
    [controlPrices_] and the grid as they are, so that the control array
    at the end of the event is the control array as the transfer left
    it. *)
Theorem step_condition_on_primary_only (step : Z) o o' :
  executeIntermediateStep fd CubicSpline step o = Ok o' ->
  exists (t : Time) (newGrid oldGrid transferredControl : Array) o4,
    Array_get (dates_ o) step = Ok t
    /\ movePricesBeforeExDiv CubicSpline (controlPrices_ o) newGrid oldGrid
       = Ok transferredControl
    /\ controlPrices_ o4 = transferredControl
    /\ applyStepCondition step o4 = Ok o'
    /\ prices_ o' = stepCondition_ o4 (prices_ o4) t
    /\ controlPrices_ o' = controlPrices_ o4
    /\ grid_ o' = grid_ o4.
Proof.
  intros H. apply step_Ok_inv in H.
  destruct H as [d [t [o1 [o3 [o4 [Hd [Ht [H1 [H3 [H4 H5]]]]]]]]]].
  destruct (updateLimits_frame _ _ fd step o o1 d Hd H1)
    as [_ [_ [_ [_ [_ Hco]]]]].
  apply movePrimary_Ok_inv in H3. destruct H3 as [p [_ ->]].
  apply moveControl_Ok_inv in H4. destruct H4 as [c [Hc ->]].
  pose proof H5 as H5'.
  apply applyStepCondition_Ok_inv in H5. destruct H5 as [t' [Ht' ->]].
  change (dates_ (rebuildOperator fd (set_controlPrices c
            (set_prices p (initializeInitialCondition fd
               (initializeGrid fd o1))))))
    with (dates_ o1) in Ht'.
  assert (Hdat : dates_ o1 = dates_ o)
    by apply (updateLimits_frame _ _ fd step o o1 d Hd H1).
  rewrite Hdat, Ht in Ht'. injection Ht' as <-.
  change (controlPrices_ (set_prices p (initializeInitialCondition fd
            (initializeGrid fd o1)))) with (controlPrices_ o1) in Hc.
  rewrite Hco in Hc.
  eexists t, _, _, c, _.
  split; [exact Ht |]. split; [exact Hc |].
  split; [| split; [exact H5' |]]; repeat split.
Qed.

(** C10.  A transfer writes the price array it is given and nothing
    else: the grid and the other price array are as before.  So the
    transfer of the primary array and the transfer of the control array
    at one event work with the same new grid, the grid of the option
    after the event, and the same old grid, the grid before the event
    plus the dividend; the control array after the event is the result
    of its transfer, the primary array the step condition applied to the
    result of its own. *)
Theorem transfers_use_same_grids (step : Z) o o' :
  executeIntermediateStep fd CubicSpline step o = Ok o' ->
  exists (d : R) (t : Time) o1 o3 o4 (primary control : Array),
    Array_get (dividends_ o) step = Ok d
    /\ Array_get (dates_ o) step = Ok t
    /\ updateLimits fd step o = Ok o1
    /\ movePrimary CubicSpline (Array_plus (grid_ o) d)
         (initializeInitialCondition fd (initializeGrid fd o1)) = Ok o3
    /\ moveControl CubicSpline (Array_plus (grid_ o) d) o3 = Ok o4
    /\ applyStepCondition step (rebuildOperator fd o4) = Ok o'
    /\ grid_ o3 = buildGrid fd o1
    /\ grid_ o4 = buildGrid fd o1
    /\ grid_ o' = buildGrid fd o1
    /\ movePricesBeforeExDiv CubicSpline (prices_ o) (grid_ o')
         (Array_plus (grid_ o) d) = Ok primary
    /\ movePricesBeforeExDiv CubicSpline (controlPrices_ o) (grid_ o')
         (Array_plus (grid_ o) d) = Ok control
    /\ prices_ o3 = primary
    /\ controlPrices_ o3 = controlPrices_ o
    /\ prices_ o4 = primary
    /\ controlPrices_ o4 = control
    /\ prices_ o' = stepCondition_ o' primary t
    /\ controlPrices_ o' = control.
Proof.
  intros H. apply step_Ok_inv in H.
  destruct H as [d [t [o1 [o3 [o4 [Hd [Ht [H1 [H3 [H4 H5]]]]]]]]]].
  destruct (updateLimits_frame _ _ fd step o o1 d Hd H1)
    as [_ [_ [Hdat [_ [Hpr Hco]]]]].
  pose proof H3 as H3'. pose proof H4 as H4'. pose proof H5 as H5'.
  apply movePrimary_Ok_inv in H3'. destruct H3' as [p [Hp ->]].
  apply moveControl_Ok_inv in H4'. destruct H4' as [c [Hc ->]].
  apply applyStepCondition_Ok_inv in H5'. destruct H5' as [t' [Ht' ->]].
  change (dates_ (rebuildOperator fd (set_controlPrices c
            (set_prices p (initializeInitialCondition fd
               (initializeGrid fd o1)))))) with (dates_ o1) in Ht'.
  rewrite Hdat, Ht in Ht'. injection Ht' as <-.
  change (prices_ (initializeInitialCondition fd (initializeGrid fd o1)))
    with (prices_ o1) in Hp.
  change (grid_ (initializeInitialCondition fd (initializeGrid fd o1)))
    with (buildGrid fd o1) in Hp.
  change (controlPrices_ (set_prices p (initializeInitialCondition fd
            (initializeGrid fd o1)))) with (controlPrices_ o1) in Hc.
  change (grid_ (set_prices p (initializeInitialCondition fd
            (initializeGrid fd o1)))) with (buildGrid fd o1) in Hc.
  rewrite Hpr in Hp. rewrite Hco in Hc.
  eexists d, t, o1, _, _, p, c.
  split; [exact Hd |]. split; [exact Ht |]. split; [exact H1 |].
  split; [exact H3 |]. split; [exact H4 |]. split; [exact H5 |].
  split; [reflexivity |]. split; [reflexivity |]. split; [reflexivity |].
  split; [exact Hp |]. split; [exact Hc |].
  split; [reflexivity |]. split; [exact Hco |].
  repeat split.
Qed.

End StepClaims.

(** *** Scenario A at its dividend event *)

Lemma scenarioA_step_succeeds :
  exists o',
    executeIntermediateStep threePointMachinery linearInterpolation 0
      scenarioA = Ok o'.
Proof.
  apply (step_succeeds unit unit threePointMachinery linearInterpolation 0
           scenarioA 5 (1/2)).
  - reflexivity.
  - reflexivity.
  - intros x. simpl. lia.
  - simpl. lia.
  - simpl. lia.
  - rewrite survivors_all; [simpl; lia |].
    simpl. repeat constructor; lra.
Qed.

Lemma dividend_event_limits_witness :
  exists o',
    executeIntermediateStep threePointMachinery linearInterpolation 0
      scenarioA = Ok o'
    /\ sMin_ o' = 50 + 5
    /\ sMax_ o' = center_ o' * center_ o' / sMin_ o'
    /\ center_ o' = 95 + 5.
Proof.
  destruct scenarioA_step_succeeds as [o' H]. exists o'.
  split; [exact H |].
  destruct (dividend_event_limits unit unit threePointMachinery
              linearInterpolation 0 scenarioA o' 5 (1/2) eq_refl eq_refl H)
    as [Hwiden _].
  destruct Hwiden as [H1 [_ [H3 H4]]]; [simpl; lra |].
  split; [exact H1 |]. split; [exact H3 | exact H4].
Defined.

Lemma dividend_event_center_witness :
  exists o',
    executeIntermediateStep threePointMachinery linearInterpolation 0
      scenarioA = Ok o'
    /\ center_ o' = 95 + 5.
Proof.
  destruct scenarioA_step_succeeds as [o' H]. exists o'.
  split; [exact H |].
  exact (proj1 (dividend_event_center unit unit threePointMachinery
                  linearInterpolation 0 scenarioA o' 5 eq_refl H)).
Defined.

Lemma step_condition_on_primary_only_witness :
  exists o' newGrid oldGrid,
    executeIntermediateStep threePointMachinery linearInterpolation 0
      scenarioA = Ok o'
    /\ movePricesBeforeExDiv linearInterpolation [0; 5; 81] newGrid oldGrid
       = Ok (controlPrices_ o').
Proof.
  destruct scenarioA_step_succeeds as [o' H].
  destruct (step_condition_on_primary_only unit unit threePointMachinery
              linearInterpolation 0 scenarioA o' H)
    as [t [newGrid [oldGrid [c [o4 [_ [Hc [H4 [_ [_ [Hco _]]]]]]]]]]].
  exists o', newGrid, oldGrid. split; [exact H |].
  rewrite Hco, H4. exact Hc.
Defined.

Lemma transfers_use_same_grids_witness :
  exists o' primary,
    executeIntermediateStep threePointMachinery linearInterpolation 0
      scenarioA = Ok o'
    /\ movePricesBeforeExDiv linearInterpolation [0; 6; 82] (grid_ o')
         (Array_plus [50; 95; 361/2] 5) = Ok primary
    /\ movePricesBeforeExDiv linearInterpolation [0; 5; 81] (grid_ o')
         (Array_plus [50; 95; 361/2] 5) = Ok (controlPrices_ o')
    /\ prices_ o' = stepCondition_ o' primary (1/2).
Proof.
  destruct scenarioA_step_succeeds as [o' H].
  destruct (transfers_use_same_grids unit unit threePointMachinery
              linearInterpolation 0 scenarioA o' H)
    as [d [t [o1 [o3 [o4 [primary [control [Hd [Ht [_ [_ [_ [_ [_ [_ [_
         [Hp [Hc [_ [_ [_ [_ [Hpr Hco]]]]]]]]]]]]]]]]]]]]]]].
  injection Hd as <-. injection Ht as <-.
  exists o', primary. split; [exact H |]. split; [exact Hp |].
  split; [rewrite Hco; exact Hc | exact Hpr].
Defined.

(** ** Part III: further properties of the code *)

(** *** More on counted loops *)

Lemma for_loop_invariant {S : Type} (P : Z -> S -> Prop)
    (body : Z -> S -> result S) :
  forall (k : nat) (j0 : Z) (s s' : S),
    for_loop k j0 body s = Ok s' ->
    P j0 s ->
    (forall j s1 s2, (j0 <= j < j0 + Z.of_nat k)%Z ->
       P j s1 -> body j s1 = Ok s2 -> P (j + 1)%Z s2) ->
    P (j0 + Z.of_nat k)%Z s'.
Proof.
  induction k as [| k IH]; intros j0 s s' H H0 Hstep.
  - simpl in H. injection H as <-.
    replace (j0 + Z.of_nat 0)%Z with j0 by lia. exact H0.
  - simpl in H. apply bind_Ok_inv in H. destruct H as [s1 [Hb Hrest]].
    replace (j0 + Z.of_nat (Datatypes.S k))%Z with (j0 + 1 + Z.of_nat k)%Z by lia.
    apply (IH _ _ _ Hrest).
    + apply (Hstep j0 s s1); [lia | exact H0 | exact Hb].
    + intros j s2 s3 Hj. apply Hstep. lia.
Qed.

Lemma for_loop_total {S : Type} (body : Z -> S -> result S) :
  forall (k : nat) (j0 : Z) (s : S),
    (forall j s1, (j0 <= j < j0 + Z.of_nat k)%Z ->
       exists s2, body j s1 = Ok s2) ->
    exists s', for_loop k j0 body s = Ok s'.
Proof.
  induction k as [| k IH]; intros j0 s Hbody.
  - exists s. reflexivity.
  - destruct (Hbody j0 s) as [s1 Hs1]; [lia |].
    destruct (IH (j0 + 1)%Z s1) as [s' Hs'].
    + intros j s2 Hj. apply Hbody. lia.
    + exists s'. simpl. rewrite Hs1. exact Hs'.
Qed.

Lemma for_loop_ext {S : Type} (body body' : Z -> S -> result S) :
  forall (k : nat) (j0 : Z) (s : S),
    (forall j s1, (j0 <= j < j0 + Z.of_nat k)%Z -> body j s1 = body' j s1) ->
    for_loop k j0 body s = for_loop k j0 body' s.
Proof.
  induction k as [| k IH]; intros j0 s Hext; [reflexivity |].
  simpl. rewrite Hext by lia. destruct (body' j0 s) as [s1 | e];
    [| reflexivity].
  cbn [bind]. apply IH. intros j s2 Hj. apply Hext. lia.
Qed.

(** *** More on the price transfer *)

Lemma survivorPrices_agree (oldGrid : Array) :
  forall prices prices' : Array,
    (length oldGrid <= length prices)%nat ->
    (length oldGrid <= length prices')%nat ->
    (forall i : nat, (i < length oldGrid)%nat -> nth i oldGrid 0 > 0 ->
       nth i prices 0 = nth i prices' 0) ->
    survivorPrices prices oldGrid = survivorPrices prices' oldGrid.
Proof.
  induction oldGrid as [| g oldGrid IH]; intros prices prices' Hp Hp' Hag;
    [reflexivity |].
  destruct prices as [| p prices]; [simpl in Hp; lia |].
  destruct prices' as [| p' prices']; [simpl in Hp'; lia |].
  unfold survivorPrices in *. cbn [combine filter fst].
  assert (Htail : map snd (filter (fun gp => positive (fst gp))
                             (combine oldGrid prices))
                  = map snd (filter (fun gp => positive (fst gp))
                               (combine oldGrid prices'))).
  { apply IH; [simpl in Hp; lia | simpl in Hp'; lia |].
    intros i Hi Hpos. apply (Hag (S i)); [simpl; lia | exact Hpos]. }
  destruct (positive g) eqn:Hg.
  - cbn [map snd]. rewrite Htail. f_equal.
    apply (Hag 0%nat); [simpl; lia |]. apply positive_true. exact Hg.
  - exact Htail.
Qed.

(** X1.  Every index whose new-grid point is at or above the
    second-to-last old-grid point receives the value that the output has
    at index [len(oldGrid)-2]: the transferred prices are flat there. *)
Theorem transfer_tail_is_flat
    (CubicSpline : list R -> list R -> R -> R)
    (prices newGrid oldGrid out : Array) (j : nat) :
  movePricesBeforeExDiv CubicSpline prices newGrid oldGrid = Ok out ->
  (j < length oldGrid)%nat ->
  nth j newGrid 0 >= nth (length oldGrid - 2) oldGrid 0 ->
  nth j out 0 = nth (length oldGrid - 2) out 0.
Proof.
  intros H Hj Hge. apply movePrices_Ok_inv in H.
  destruct H as [Hp [Hng [Hs ->]]].
  pose proof (survivors_length_le oldGrid) as Hle.
  rewrite !transferred_nth by lia. f_equal.
  unfold spec_point, spec_jGrid.
  destruct (Rlt_dec (nth j newGrid 0) _) as [Hlt | _]; [lra |].
  destruct (Rlt_dec (nth (length oldGrid - 2) newGrid 0) _); reflexivity.
Qed.

Lemma transfer_tail_is_flat_witness :
  exists out,
    movePricesBeforeExDiv linearInterpolation [0; 5; 12] [2; 50; 60]
      [1; 10; 100] = Ok out
    /\ nth 2 out 0 = nth 1 out 0.
Proof.
  assert (Hrun : movePricesBeforeExDiv linearInterpolation [0; 5; 12]
                   [2; 50; 60] [1; 10; 100]
                 = Ok (transferred linearInterpolation [0; 5; 12]
                         [2; 50; 60] [1; 10; 100])).
  { apply movePrices_Ok; [simpl; lia | simpl; lia |].
    rewrite survivors_scenario. simpl. lia. }
  eexists. split; [exact Hrun |].
  apply (transfer_tail_is_flat _ _ _ _ _ 2 Hrun); simpl; [lia | lra].
Defined.

(** X2.  The price paired with an old-grid point that is not positive is
    dropped by the filter: two price arrays that agree wherever the old
    grid is positive are transferred to the same prices. *)
Theorem transfer_ignores_dropped_prices
    (CubicSpline : list R -> list R -> R -> R)
    (prices prices' newGrid oldGrid out out' : Array) :
  movePricesBeforeExDiv CubicSpline prices newGrid oldGrid = Ok out ->
  movePricesBeforeExDiv CubicSpline prices' newGrid oldGrid = Ok out' ->
  (forall i : nat, (i < length oldGrid)%nat -> nth i oldGrid 0 > 0 ->
     nth i prices 0 = nth i prices' 0) ->
  forall j : nat, (j < length oldGrid)%nat -> nth j out 0 = nth j out' 0.
Proof.
  intros H H' Hag j Hj.
  apply movePrices_Ok_inv in H. destruct H as [Hp [_ [_ ->]]].
  apply movePrices_Ok_inv in H'. destruct H' as [Hp' [_ [_ ->]]].
  rewrite !transferred_nth by exact Hj. unfold priceSplineOf.
  now rewrite (survivorPrices_agree oldGrid prices prices' Hp Hp' Hag).
Qed.

Lemma transfer_ignores_dropped_prices_witness :
  exists out out',
    movePricesBeforeExDiv linearInterpolation [7; 0; 5; 12] [2; 3; 50; 60]
      [-1; 1; 10; 100] = Ok out
    /\ movePricesBeforeExDiv linearInterpolation [9; 0; 5; 12] [2; 3; 50; 60]
         [-1; 1; 10; 100] = Ok out'
    /\ nth 0 out 0 = nth 0 out' 0.
Proof.
  assert (Hs : Nat.le 2 (length (survivors [-1; 1; 10; 100]))).
  { unfold survivors, positive. cbn [filter]. real_cases. simpl. lia. }
  assert (Hrun : forall p0 : R,
            movePricesBeforeExDiv linearInterpolation [p0; 0; 5; 12]
              [2; 3; 50; 60] [-1; 1; 10; 100]
            = Ok (transferred linearInterpolation [p0; 0; 5; 12]
                    [2; 3; 50; 60] [-1; 1; 10; 100])).
  { intros p0. apply movePrices_Ok; [simpl; lia | simpl; lia | exact Hs]. }
  eexists. eexists. split; [exact (Hrun 7) |]. split; [exact (Hrun 9) |].
  apply (transfer_ignores_dropped_prices _ _ _ _ _ _ _ (Hrun 7) (Hrun 9)).
  - intros [| [| [| [| i]]]] Hi Hpos; simpl in *;
      try reflexivity; try lra; lia.
  - simpl. lia.
Defined.

(** X3.  With an old grid of positive points and a spline through its
    knots, a new-grid point that coincides with an old-grid point and
    lies below the second-to-last old-grid point receives the price of
    that old-grid point. *)
Theorem transfer_exact_at_old_grid_point
    (CubicSpline : list R -> list R -> R -> R)
    (prices newGrid oldGrid out : Array) (i j : nat) :
  Forall (fun g => g > 0) oldGrid ->
  length prices = length oldGrid ->
  interpolates (CubicSpline (map ln oldGrid) prices) (map ln oldGrid) prices ->
  movePricesBeforeExDiv CubicSpline prices newGrid oldGrid = Ok out ->
  (i < length oldGrid)%nat -> (j < length oldGrid)%nat ->
  nth j newGrid 0 = nth i oldGrid 0 ->
  nth j newGrid 0 < nth (length oldGrid - 2) oldGrid 0 ->
  nth j out 0 = nth i prices 0.
Proof.
  intros Hpos Hlen Hint H Hi Hj Heq Hlt.
  apply movePrices_Ok_inv in H. destruct H as [_ [_ [_ ->]]].
  rewrite transferred_nth by exact Hj.
  unfold priceSplineOf, spec_point, spec_jGrid.
  rewrite (survivors_all _ Hpos), (survivorPrices_all _ Hpos _ Hlen).
  destruct (Rlt_dec _ _) as [_ | Hn]; [| contradiction].
  rewrite Heq. rewrite <- (Hint i) by (rewrite length_map; exact Hi).
  f_equal.
  rewrite (nth_indep (map ln oldGrid) 0 (ln 0))
    by (rewrite length_map; exact Hi).
  now rewrite map_nth.
Qed.

Lemma increasing_scenario : increasing [1; 10; 100].
Proof.
  intros i j Hij. simpl in Hij.
  destruct i as [| [| [| i]]]; destruct j as [| [| [| j]]];
    simpl; try lia; lra.
Qed.

Lemma transfer_exact_at_old_grid_point_witness :
  exists out,
    movePricesBeforeExDiv linearInterpolation [0; 5; 12] [1; 50; 60]
      [1; 10; 100] = Ok out
    /\ nth 0 out 0 = 0.
Proof.
  assert (Hpos : Forall (fun g => g > 0) [1; 10; 100])
    by (repeat constructor; lra).
  assert (Hrun : movePricesBeforeExDiv linearInterpolation [0; 5; 12]
                   [1; 50; 60] [1; 10; 100]
                 = Ok (transferred linearInterpolation [0; 5; 12]
                         [1; 50; 60] [1; 10; 100])).
  { apply movePrices_Ok; [simpl; lia | simpl; lia |].
    rewrite survivors_scenario. simpl. lia. }
  eexists. split; [exact Hrun |].
  apply (transfer_exact_at_old_grid_point linearInterpolation [0; 5; 12]
           [1; 50; 60] [1; 10; 100] _ 0 0 Hpos eq_refl).
  - apply linearInterpolation_interpolates; [| reflexivity].
    apply increasing_map_ln; [exact increasing_scenario | exact Hpos].
  - exact Hrun.
  - simpl. lia.
  - simpl. lia.
  - reflexivity.
  - simpl. lra.
Defined.

(** *** More on the intermediate step *)

Section StepExtras.

Variables Operator Model : Type.
Variable fd : Machinery Operator Model.
Variable CubicSpline : list R -> list R -> R -> R.

Implicit Types o : DividendOption Operator Model.

(** The center and the limits after a step, read off lines 130-135. *)
Lemma step_limits (step : Z) o o' (d : R) (t : Time) :
  Array_get (dividends_ o) step = Ok d ->
  Array_get (dates_ o) step = Ok t ->
  executeIntermediateStep fd CubicSpline step o = Ok o' ->
  let current := setGridLimits fd (center_ o + d) t o in
  center_ o' = center_ o + d
  /\ (sMin_ o + d > sMin_ current ->
      sMin_ o' = sMin_ o + d
      /\ sMax_ o' = center_ o' * center_ o' / (sMin_ o + d))
  /\ (~ sMin_ o + d > sMin_ current ->
      sMin_ o' = sMin_ current /\ sMax_ o' = sMax_ current).
Proof.
  intros Hd Ht H current.
  apply step_limits_frame in H. destruct H as [o1 [H1 [Hc [Hmin Hmax]]]].
  rewrite (updateLimits_Ok _ _ fd _ _ _ _ Hd Ht) in H1.
  injection H1 as H1. fold current in H1. cbv zeta in H1.
  assert (Hcur : center_ current = center_ o + d)
    by apply setGridLimits_frame.
  rewrite Hc, Hmin, Hmax. subst o1.
  destruct (Rgt_dec (sMin_ o + d) (sMin_ current)) as [Hgt | Hngt].
  - cbn [set_sMax set_sMin with_base base_ sMin_ sMax_ center_].
    rewrite Rdiv_by_ratio, Hcur.
    split; [reflexivity |]. split; [intros _; split; reflexivity |].
    intros Hn. contradiction.
  - split; [exact Hcur |]. split; [intros Hgt; contradiction |].
    intros _. split; reflexivity.
Qed.

(** X4.  The lower limit after a dividend event is the larger of the
    candidate (the old [sMin_] plus the dividend) and the [sMin_] that
    [setGridLimits] has left: the event never lowers the current lower
    limit and never leaves it below the candidate. *)
Theorem dividend_event_sMin_is_max (step : Z) o o' (d : R) (t : Time) :
  Array_get (dividends_ o) step = Ok d ->
  Array_get (dates_ o) step = Ok t ->
  executeIntermediateStep fd CubicSpline step o = Ok o' ->
  sMin_ o'
  = Rmax (sMin_ o + d) (sMin_ (setGridLimits fd (center_ o + d) t o)).
Proof.
  intros Hd Ht H.
  destruct (step_limits step o o' d t Hd Ht H) as [_ [Hw Hk]].
  destruct (Rgt_dec (sMin_ o + d)
              (sMin_ (setGridLimits fd (center_ o + d) t o))) as [Hgt | Hn].
  - rewrite Rmax_left by lra. apply Hw. exact Hgt.
  - rewrite Rmax_right by lra. apply Hk. exact Hn.
Qed.

(** X5.  When a dividend event widens the limits and the new lower limit
    is not zero, the center is the geometric mean of the limits:
    [sMin_ * sMax_ = center_^2]. *)
Theorem dividend_event_limits_symmetric
    (step : Z) o o' (d : R) (t : Time) :
  Array_get (dividends_ o) step = Ok d ->
  Array_get (dates_ o) step = Ok t ->
  executeIntermediateStep fd CubicSpline step o = Ok o' ->
  sMin_ o + d > sMin_ (setGridLimits fd (center_ o + d) t o) ->
  sMin_ o + d <> 0 ->
  sMin_ o' * sMax_ o' = center_ o' * center_ o'.
Proof.
  intros Hd Ht H Hgt Hnz.
  destruct (step_limits step o o' d t Hd Ht H) as [_ [Hw _]].
  destruct (Hw Hgt) as [-> ->]. field. exact Hnz.
Qed.

(** X6.  Both price arrays go through the same transfer: if the primary
    and the control array are equal before a dividend event, then after
    it the primary array is the step condition applied to the control
    array. *)
Theorem dividend_event_keeps_arrays_in_step
    (step : Z) o o' (t : Time) :
  Array_get (dates_ o) step = Ok t ->
  prices_ o = controlPrices_ o ->
  executeIntermediateStep fd CubicSpline step o = Ok o' ->
  prices_ o' = stepCondition_ o' (controlPrices_ o') t.
Proof.
  intros Ht Heq H. apply step_Ok_inv in H.
  destruct H as [d [t' [o1 [o3 [o4 [Hd [Ht' [H1 [H3 [H4 H5]]]]]]]]]].
  rewrite Ht in Ht'. injection Ht' as <-.
  destruct (updateLimits_frame _ _ fd step o o1 d Hd H1)
    as [_ [_ [Hdat [_ [Hpr Hco]]]]].
  apply movePrimary_Ok_inv in H3. destruct H3 as [p [Hp ->]].
  apply moveControl_Ok_inv in H4. destruct H4 as [c [Hc ->]].
  apply applyStepCondition_Ok_inv in H5. destruct H5 as [t2 [Ht2 ->]].
  change (dates_ (rebuildOperator fd (set_controlPrices c
            (set_prices p (initializeInitialCondition fd
               (initializeGrid fd o1)))))) with (dates_ o1) in Ht2.
  rewrite Hdat, Ht in Ht2. injection Ht2 as <-.
  change (prices_ (initializeInitialCondition fd (initializeGrid fd o1)))
    with (prices_ o1) in Hp.
  change (controlPrices_ (set_prices p (initializeInitialCondition fd
            (initializeGrid fd o1)))) with (controlPrices_ o1) in Hc.
  change (grid_ (set_prices p (initializeInitialCondition fd
            (initializeGrid fd o1))))
    with (grid_ (initializeInitialCondition fd (initializeGrid fd o1)))
    in Hc.
  rewrite Hpr, Heq in Hp. rewrite Hco in Hc.
  assert (Hpc : p = c) by congruence. subst c.
  reflexivity.
Qed.

(** X7.  If fewer than two points of the old grid, shifted by the
    dividend, are positive, the dividend event fails with
    [DegenerateGridError]. *)
Theorem dividend_event_degenerate (step : Z) o (d : R) (t : Time) :
  Array_get (dividends_ o) step = Ok d ->
  Array_get (dates_ o) step = Ok t ->
  (length (grid_ o) <= length (prices_ o))%nat ->
  (length (survivors (Array_plus (grid_ o) d)) < 2)%nat ->
  executeIntermediateStep fd CubicSpline step o = Raise DegenerateGridError.
Proof.
  intros Hd Ht Hp Hs.
  unfold executeIntermediateStep.
  rewrite (updateLimits_Ok _ _ fd _ _ _ _ Hd Ht). cbn [bind].
  set (o1 := let current := setGridLimits fd (center_ o + d) t o in
             if Rgt_dec (sMin_ o + d) (sMin_ current)
             then set_sMax
                    (center_ current / ((sMin_ o + d) / center_ current))
                    (set_sMin (sMin_ o + d) current)
             else current).
  assert (Hfr : dividends_ o1 = dividends_ o /\ dates_ o1 = dates_ o
                /\ grid_ o1 = grid_ o /\ prices_ o1 = prices_ o
                /\ controlPrices_ o1 = controlPrices_ o).
  { apply (updateLimits_frame _ _ fd step o o1 d Hd).
    apply updateLimits_Ok; assumption. }
  destruct Hfr as [Hdiv [_ [Hg [Hpr _]]]].
  unfold rebuildGrid. rewrite Hdiv, Hd. cbn [bind]. rewrite Hg.
  unfold movePrimary.
  change (prices_ (initializeInitialCondition fd (initializeGrid fd o1)))
    with (prices_ o1).
  rewrite Hpr.
  rewrite movePrices_degenerate;
    [reflexivity | rewrite Array_plus_length; exact Hp | exact Hs].
Qed.

(** X8.  A dividend event keeps the length of the control array. *)
Theorem dividend_event_control_length (step : Z) o o' :
  executeIntermediateStep fd CubicSpline step o = Ok o' ->
  length (controlPrices_ o') = length (controlPrices_ o).
Proof.
  intros H. apply step_Ok_inv in H.
  destruct H as [d [t [o1 [o3 [o4 [Hd [_ [H1 [H3 [H4 H5]]]]]]]]]].
  destruct (updateLimits_frame _ _ fd step o o1 d Hd H1)
    as [_ [_ [_ [_ [_ Hco]]]]].
  apply movePrimary_Ok_inv in H3. destruct H3 as [p [_ ->]].
  apply moveControl_Ok_inv in H4. destruct H4 as [c [Hc ->]].
  apply applyStepCondition_Ok_inv in H5. destruct H5 as [t' [_ ->]].
  change (length c = length (controlPrices_ o)).
  apply movePrices_Ok_inv in Hc. destruct Hc as [Hlen [_ [_ ->]]].
  rewrite transferred_length by exact Hlen.
  change (controlPrices_ (set_prices p (initializeInitialCondition fd
            (initializeGrid fd o1)))) with (controlPrices_ o1).
  now rewrite Hco.
Qed.

End StepExtras.

Lemma dividend_event_sMin_is_max_witness :
  exists o',
    executeIntermediateStep threePointMachinery linearInterpolation 0
      scenarioA = Ok o'
    /\ sMin_ o' = Rmax (50 + 5) 50.
Proof.
  destruct scenarioA_step_succeeds as [o' H]. exists o'.
  split; [exact H |].
  exact (dividend_event_sMin_is_max unit unit threePointMachinery
           linearInterpolation 0 scenarioA o' 5 (1/2) eq_refl eq_refl H).
Defined.

Lemma dividend_event_limits_symmetric_witness :
  exists o',
    executeIntermediateStep threePointMachinery linearInterpolation 0
      scenarioA = Ok o'
    /\ sMin_ o' * sMax_ o' = center_ o' * center_ o'.
Proof.
  destruct scenarioA_step_succeeds as [o' H]. exists o'.
  split; [exact H |].
  apply (dividend_event_limits_symmetric unit unit threePointMachinery
           linearInterpolation 0 scenarioA o' 5 (1/2) eq_refl eq_refl H);
    simpl; lra.
Defined.

Lemma dividend_event_keeps_arrays_in_step_witness :
  exists o',
    executeIntermediateStep threePointMachinery linearInterpolation 0
      (set_prices [0; 5; 81] scenarioA) = Ok o'
    /\ prices_ o' = stepCondition_ o' (controlPrices_ o') (1/2).
Proof.
  destruct (step_succeeds unit unit threePointMachinery linearInterpolation
              0 (set_prices [0; 5; 81] scenarioA) 5 (1/2)) as [o' H].
  - reflexivity.
  - reflexivity.
  - intros x. simpl. lia.
  - simpl. lia.
  - simpl. lia.
  - rewrite survivors_all; [simpl; lia |].
    simpl. repeat constructor; lra.
  - exists o'. split; [exact H |].
    exact (dividend_event_keeps_arrays_in_step unit unit threePointMachinery
             linearInterpolation 0 (set_prices [0; 5; 81] scenarioA) o'
             (1/2) eq_refl eq_refl H).
Defined.

Lemma dividend_event_degenerate_witness :
  executeIntermediateStep threePointMachinery linearInterpolation 0
    (set_grid [-100; -50; 1] scenarioA)
  = Raise DegenerateGridError.
Proof.
  apply (dividend_event_degenerate unit unit threePointMachinery
           linearInterpolation 0 (set_grid [-100; -50; 1] scenarioA) 5 (1/2)).
  - reflexivity.
  - reflexivity.
  - simpl. lia.
  - unfold survivors, positive. cbn. real_cases. simpl. lia.
Defined.

Lemma dividend_event_control_length_witness :
  exists o',
    executeIntermediateStep threePointMachinery linearInterpolation 0
      scenarioA = Ok o'
    /\ length (controlPrices_ o') = 3%nat.
Proof.
  destruct scenarioA_step_succeeds as [o' H]. exists o'.
  split; [exact H |].
  exact (dividend_event_control_length unit unit threePointMachinery
           linearInterpolation 0 scenarioA o' H).
Defined.

(** *** The control variate *)

(** X9.  When the base class stores the underlying it is handed, the
    control variate of a constructed option is built on the underlying
    that was given to the constructor, with the same dividends: the
    dividends that the constructor takes off are put back. *)
Theorem control_variate_restores_underlying
    (Operator Model : Type)
    (MultiPeriodOption_new :
       BSMArguments -> R -> list Time ->
       result (MultiPeriodOption Operator Model))
    (args : BSMArguments) (underlying : R) (dividends : list R)
    (exdivdates : list Time) (o : DividendOption Operator Model) :
  (forall a u d b, MultiPeriodOption_new a u d = Ok b -> underlying_ b = u) ->
  DividendOption_new MultiPeriodOption_new args underlying dividends
    exdivdates = Ok o ->
  analytic_underlying (initializeControlVariate args o) = underlying
  /\ analytic_dividends (initializeControlVariate args o) = dividends
  /\ underlying_ o = underlying - addElements dividends
  /\ underlying_ o > 0.
Proof.
  intros Hbase H.
  unfold DividendOption_new in H. apply bind_Ok_inv in H.
  destruct H as [b [Hb H]]. apply bind_Ok_inv in H.
  destruct H as [[] [_ H]]. apply bind_Ok_inv in H.
  destruct H as [[] [Hreq H]]. injection H as <-.
  unfold QL_REQUIRE in Hreq.
  destruct (Rgt_dec underlying (addElements dividends)) as [Hgt | _];
    [| discriminate Hreq].
  unfold initializeControlVariate. cbn [analytic_underlying
    analytic_dividends dividends_ base_].
  rewrite (Hbase _ _ _ _ Hb). repeat split; lra.
Qed.

Lemma control_variate_restores_underlying_witness :
  exists o,
    DividendOption_new MultiPeriodOption_contract scenarioArguments 100 [5]
      [1/2] = Ok o
    /\ analytic_underlying (initializeControlVariate scenarioArguments o)
       = 100.
Proof.
  assert (Hrun : exists o,
            DividendOption_new MultiPeriodOption_contract scenarioArguments
              100 [5] [1/2] = Ok o).
  { unfold DividendOption_new, MultiPeriodOption_contract, QL_REQUIRE.
    rewrite addElements_one.
    destruct (Rgt_dec (100 - 5) 0) as [_ | Hn]; [| lra].
    cbn. destruct (Rgt_dec 100 5) as [_ | Hn]; [| lra].
    eexists. reflexivity. }
  destruct Hrun as [o Ho]. exists o. split; [exact Ho |].
  apply (control_variate_restores_underlying unit unit
           MultiPeriodOption_contract scenarioArguments 100 [5] [1/2] o);
    [| exact Ho].
  intros a u d b Hb. unfold MultiPeriodOption_contract, QL_REQUIRE in Hb.
  destruct (Rgt_dec u 0); [| discriminate Hb].
  destruct (Z_gt_dec (timeSteps a) 0); [| discriminate Hb].
  destruct (Z_gt_dec (gridPoints a) 0); [| discriminate Hb].
  cbn in Hb. injection Hb as <-. reflexivity.
Defined.

(** *** [SimpleQuote] *)

Module SimpleQuoteFacts.

Import SimpleQuote.

Lemma setValue_unchanged (v : R) (q : SimpleQuote) :
  v = value q -> setValue v q = (0, q).
Proof.
  intros ->. unfold setValue, value.
  destruct (Req_dec_T (value_ q - value_ q) 0) as [_ | Hn]; [| lra].
  f_equal. lra.
Qed.

Lemma setValue_changed (v : R) (q : SimpleQuote) :
  v <> value q ->
  setValue v q = (v - value q, mkSimpleQuote v (S (notifications q))).
Proof.
  intros Hne. unfold setValue, value in *.
  destruct (Req_dec_T (v - value_ q) 0) as [He | _]; [lra |].
  reflexivity.
Qed.

Lemma setValue_then_value_aux (v : R) (q : SimpleQuote) :
  value (snd (setValue v q)) = v.
Proof.
  destruct (Req_dec_T v (value q)) as [He | Hne].
  - rewrite (setValue_unchanged v q He). simpl. lra.
  - rewrite (setValue_changed v q Hne). reflexivity.
Qed.

(** X10.  [setValue] returns the new value minus the old one, and
    [value()] after it returns the new value, whether or not the
    assignment was carried out. *)
Theorem setValue_then_value (v : R) (q : SimpleQuote) :
  fst (setValue v q) = v - value q
  /\ value (snd (setValue v q)) = v.
Proof.
  destruct (Req_dec_T v (value q)) as [He | Hne].
  - rewrite (setValue_unchanged v q He). simpl. split; lra.
  - rewrite (setValue_changed v q Hne). simpl. split; reflexivity.
Qed.

(** X11.  The observers are notified exactly when the value changes: one
    notification if the new value differs from the stored one, none (and
    the quote as it was) if it does not; setting the same value a second
    time returns 0 and notifies nobody. *)
Theorem setValue_notifies_on_change (v : R) (q : SimpleQuote) :
  (v <> value q ->
     notifications (snd (setValue v q)) = S (notifications q))
  /\ (v = value q -> snd (setValue v q) = q)
  /\ setValue v (snd (setValue v q)) = (0, snd (setValue v q)).
Proof.
  split; [| split].
  - intros Hne. rewrite (setValue_changed v q Hne). reflexivity.
  - intros He. rewrite (setValue_unchanged v q He). reflexivity.
  - apply setValue_unchanged. symmetry. apply setValue_then_value_aux.
Qed.

End SimpleQuoteFacts.

(** *** [BarrierOption::arguments::validate] *)

Module BarrierOptionFacts.

Import BarrierOption.

(** X13.  Once the validation of the base class has passed, [validate]
    accepts the arguments exactly when the barrier type is one of the four
    enumerators and the underlying is on the live side of the barrier or
    on it: at or above the barrier for [DownIn] and [DownOut], at or
    below it for [UpIn] and [UpOut].  An underlying equal to the barrier
    is accepted for each of the four types; any other type is
    rejected. *)
Theorem validate_accepts_iff
    (VanillaOption_validate : arguments -> result unit) (a : arguments) :
  VanillaOption_validate a = Ok tt ->
  (validate VanillaOption_validate a = Ok tt
   <-> ((barrierType a = DownIn \/ barrierType a = DownOut)
        /\ underlying a >= barrier a)
       \/ ((barrierType a = UpIn \/ barrierType a = UpOut)
           /\ underlying a <= barrier a))
  /\ (barrierType a <> OtherType -> underlying a = barrier a ->
      validate VanillaOption_validate a = Ok tt)
  /\ (barrierType a = OtherType ->
      validate VanillaOption_validate a = Raise ConfigurationError).
Proof.
  intros Hbase. unfold validate. rewrite Hbase. cbn [bind].
  unfold QL_REQUIRE.
  destruct (barrierType a) eqn:Ht.
  - destruct (Rge_dec _ _) as [Hge | Hn]; repeat split;
      try reflexivity; try discriminate; try tauto; try (intros; lra).
    + intros [[_ H] | [[H | H] _]]; [contradiction | discriminate H
                                                  | discriminate H].
  - destruct (Rle_dec _ _) as [Hle | Hn]; repeat split;
      try reflexivity; try discriminate; try tauto; try (intros; lra).
    + intros [[[H | H] _] | [_ H]]; [discriminate H | discriminate H
                                                  | contradiction].
  - destruct (Rge_dec _ _) as [Hge | Hn]; repeat split;
      try reflexivity; try discriminate; try tauto; try (intros; lra).
    + intros [[_ H] | [[H | H] _]]; [contradiction | discriminate H
                                                  | discriminate H].
  - destruct (Rle_dec _ _) as [Hle | Hn]; repeat split;
      try reflexivity; try discriminate; try tauto; try (intros; lra).
    + intros [[[H | H] _] | [_ H]]; [discriminate H | discriminate H
                                                  | contradiction].
  - repeat split; try reflexivity; try discriminate; try tauto.
    intros [[[H | H] _] | [[H | H] _]]; discriminate H.
Qed.

Lemma validate_accepts_iff_witness :
  validate (fun _ => Ok tt) (mkArguments DownOut 90 0 100) = Ok tt
  /\ validate (fun _ => Ok tt) (mkArguments UpOut 100 0 100) = Ok tt.
Proof.
  split.
  - apply (proj2 (proj1 (validate_accepts_iff (fun _ => Ok tt)
                           (mkArguments DownOut 90 0 100) eq_refl))).
    left. split; [right; reflexivity | simpl; lra].
  - apply (proj1 (proj2 (validate_accepts_iff (fun _ => Ok tt)
                           (mkArguments UpOut 100 0 100) eq_refl)));
      [discriminate | reflexivity].
Defined.

End BarrierOptionFacts.

(** *** [CliquetOptionPathPricer] and [McCliquetOption] *)

Lemma Array_get_Ok (a : Array) (i : Z) :
  (0 <= i < size a)%Z -> Array_get a i = Ok (nth (Z.to_nat i) a 0).
Proof.
  intros H. unfold Array_get, in_range.
  replace (0 <=? i)%Z with true by (symmetry; apply Z.leb_le; lia).
  replace (i <? size a)%Z with true by (symmetry; apply Z.ltb_lt; lia).
  reflexivity.
Qed.

Lemma sum_firstn_S (l : list R) :
  forall j : nat,
    fold_right Rplus 0 (firstn (S j) l)
    = fold_right Rplus 0 (firstn j l) + nth j l 0.
Proof.
  induction l as [| x l IH]; intros j.
  - destruct j; simpl; lra.
  - destruct j as [| j].
    + simpl. lra.
    + change (firstn (S (S j)) (x :: l)) with (x :: firstn (S j) l).
      change (firstn (S j) (x :: l)) with (x :: firstn j l).
      cbn [fold_right nth]. rewrite IH. lra.
Qed.

Lemma nth_nonnegative (l : list R) (j : nat) :
  Forall (fun d => 0 <= d) l -> 0 <= nth j l 0.
Proof.
  intros H. destruct (Nat.lt_ge_cases j (length l)) as [Hlt | Hge].
  - rewrite Forall_forall in H. apply H. apply nth_In. exact Hlt.
  - rewrite nth_overflow by exact Hge. lra.
Qed.

Lemma clamp_bounds (x lo hi : R) :
  Rmin (Rmax x lo) hi <= hi
  /\ (lo <= hi -> lo <= Rmin (Rmax x lo) hi)
  /\ (0 <= lo -> 0 <= hi -> 0 <= Rmin (Rmax x lo) hi).
Proof.
  unfold Rmin, Rmax.
  destruct (Rle_dec x lo); destruct (Rle_dec _ hi); repeat split;
    intros; lra.
Qed.

Module CliquetFacts.

Import Cliquet.

Section PathPricerFacts.

Variable NullDouble : R.
Variable QL_MAX_DOUBLE : R.
Variable PlainVanillaPayoff : OptionType -> R -> R -> R.
Variable divisionByZero : R -> R.

Local Notation "'fixing'" :=
  (Cliquet.fixing NullDouble PlainVanillaPayoff divisionByZero).
Local Notation "'price'" :=
  (Cliquet.price NullDouble PlainVanillaPayoff divisionByZero).

Lemma fixing_total (p : CliquetOptionPathPricer) (path : list R) (i : Z)
    (s : R * R * R) :
  (0 <= i < size path)%Z ->
  (0 <= i < size (discounts_ p))%Z ->
  exists s', fixing p path i s = Ok s'.
Proof.
  intros Hi Hd. destruct s as [[r lf] u]. unfold Cliquet.fixing.
  rewrite (Array_get_Ok path i Hi). cbn [bind].
  destruct (Req_dec_T lf NullDouble); cbn [bind]; [eexists; reflexivity |].
  destruct (redemptionOnly_ p); cbn [bind]; [eexists; reflexivity |].
  rewrite (Array_get_Ok (discounts_ p) i Hd). cbn [bind].
  eexists. reflexivity.
Qed.

Lemma price_Ok_inv (p : CliquetOptionPathPricer) (path : list R) (v : R) :
  price p path = Ok v ->
  (0 < length path)%nat
  /\ length path = length (discounts_ p)
  /\ exists s,
       for_loop (length path) 0 (fixing p path)
         (if redemptionOnly_ p then accruedCoupon_ p else 0,
          lastFixing_ p, underlying_ p) = Ok s
       /\ v = if redemptionOnly_ p
              then nth (length (discounts_ p) - 1) (discounts_ p) 0
                   * Rmin (Rmax (fst (fst s)) (globalFloor_ p))
                       (globalCap_ p)
              else fst (fst s).
Proof.
  intros H. unfold Cliquet.price, QL_REQUIRE in H.
  destruct (Z_gt_dec (size path) 0) as [Hn | _]; [| discriminate H].
  cbn [bind] in H.
  destruct (Z.eq_dec (size path) (size (discounts_ p))) as [He | _];
    [| discriminate H].
  cbn [bind] in H. apply bind_Ok_inv in H. destruct H as [s [Hloop H]].
  unfold for_range in Hloop. rewrite size_nat in Hloop.
  unfold size in Hn, He.
  split; [lia |]. split; [lia |]. exists s. split; [exact Hloop |].
  destruct (redemptionOnly_ p).
  - apply bind_Ok_inv in H. destruct H as [back [Hb H]].
    apply Array_get_Ok_inv in Hb. destruct Hb as [_ ->].
    injection H as <-. f_equal. f_equal. unfold size. lia.
  - injection H as <-. reflexivity.
Qed.

Lemma price_total (p : CliquetOptionPathPricer) (path : list R) :
  (0 < length path)%nat ->
  length path = length (discounts_ p) ->
  exists v, price p path = Ok v.
Proof.
  intros Hn He. unfold Cliquet.price, QL_REQUIRE.
  destruct (Z_gt_dec (size path) 0) as [_ | Hc]; [| unfold size in Hc; lia].
  cbn [bind].
  destruct (Z.eq_dec (size path) (size (discounts_ p))) as [_ | Hc];
    [| unfold size in Hc; lia].
  cbn [bind]. unfold for_range.
  destruct (for_loop_total (fixing p path) (Z.to_nat (size path)) 0
              (if redemptionOnly_ p then accruedCoupon_ p else 0,
               lastFixing_ p, underlying_ p)) as [s Hs].
  - intros j s1 Hj. rewrite size_nat in Hj.
    apply fixing_total; unfold size; lia.
  - rewrite Hs. cbn [bind]. destruct (redemptionOnly_ p).
    + rewrite Array_get_Ok by (unfold size; lia). cbn [bind].
      eexists. reflexivity.
    + eexists. reflexivity.
Qed.

(** X14.  The path pricer prices a path exactly when the path is not
    empty and has as many values as there are discounts; every other path
    is rejected. *)
Theorem price_accepts_iff (p : CliquetOptionPathPricer) (path : list R) :
  (exists v, price p path = Ok v)
  <-> ((0 < length path)%nat /\ length path = length (discounts_ p)).
Proof.
  split.
  - intros [v H]. apply price_Ok_inv in H. tauto.
  - intros [Hn He]. apply price_total; assumption.
Qed.

(** X15.  For a pricer with a positive underlying, as the constructor
    demands, and a last fixing other than zero, so that no fixing divides
    by zero: with redemption only, the price of a path is the last
    discount times an amount that is capped by the global cap and, when
    the global floor does not exceed the cap, floored by the global
    floor: for a nonnegative last discount [d] the price lies between
    [d * globalFloor] and [d * globalCap]. *)
Theorem price_redemption_within_global_limits
    (p : CliquetOptionPathPricer) (path : list R) (v : R) :
  underlying_ p > 0 ->
  lastFixing_ p <> 0 ->
  redemptionOnly_ p = true ->
  globalFloor_ p <= globalCap_ p ->
  0 <= nth (length (discounts_ p) - 1) (discounts_ p) 0 ->
  price p path = Ok v ->
  nth (length (discounts_ p) - 1) (discounts_ p) 0 * globalFloor_ p <= v
  /\ v <= nth (length (discounts_ p) - 1) (discounts_ p) 0 * globalCap_ p.
Proof.
  intros _ _ Hr Hfc Hd H. apply price_Ok_inv in H.
  destruct H as [_ [_ [s [_ ->]]]]. rewrite Hr.
  destruct (clamp_bounds (fst (fst s)) (globalFloor_ p) (globalCap_ p))
    as [Hhi [Hlo _]].
  specialize (Hlo Hfc).
  split; apply Rmult_le_compat_l; assumption.
Qed.

(** X16.  For a pricer with a positive underlying, as the constructor
    demands, and a last fixing other than zero, so that no fixing divides
    by zero: without redemption only, with a nonnegative local floor, a
    nonnegative local cap and nonnegative discounts, the price of a path
    is nonnegative and at most the local cap times the sum of the
    discounts. *)
Theorem price_coupons_within_local_cap
    (p : CliquetOptionPathPricer) (path : list R) (v : R) :
  underlying_ p > 0 ->
  lastFixing_ p <> 0 ->
  redemptionOnly_ p = false ->
  0 <= localFloor_ p -> 0 <= localCap_ p ->
  Forall (fun d => 0 <= d) (discounts_ p) ->
  price p path = Ok v ->
  0 <= v <= localCap_ p * fold_right Rplus 0 (discounts_ p).
Proof.
  intros _ _ Hr Hfl Hcap Hd H. apply price_Ok_inv in H.
  destruct H as [_ [Hlen [s [Hloop ->]]]]. rewrite Hr in *.
  pose (P := fun (j : Z) (st : R * R * R) =>
               0 <= fst (fst st)
               <= localCap_ p
                  * fold_right Rplus 0 (firstn (Z.to_nat j) (discounts_ p))).
  assert (HP : P (0 + Z.of_nat (length path))%Z s).
  { apply (for_loop_invariant P _ _ _ _ _ Hloop).
    - unfold P. simpl. lra.
    - intros j [[r lf] u] s2 Hj HPj Hbody. unfold P in *.
      cbn [fst] in HPj.
      replace (Z.to_nat (j + 1)) with (S (Z.to_nat j)) by lia.
      rewrite sum_firstn_S.
      pose proof (nth_nonnegative (discounts_ p) (Z.to_nat j) Hd) as Hdj.
      unfold Cliquet.fixing in Hbody.
      apply bind_Ok_inv in Hbody. destruct Hbody as [x [_ Hbody]].
      destruct (Req_dec_T lf NullDouble).
      + cbn [bind] in Hbody. injection Hbody as <-. cbn [fst]. nra.
      + rewrite Hr in Hbody. apply bind_Ok_inv in Hbody.
        destruct Hbody as [r' [Hr' Hbody]]. injection Hbody as <-.
        apply bind_Ok_inv in Hr'. destruct Hr' as [d [Hget Hr']].
        injection Hr' as <-. apply Array_get_Ok_inv in Hget.
        destruct Hget as [_ ->]. cbn [fst].
        match goal with
        | |- context [Rmin (Rmax ?y ?lo) ?hi] =>
            destruct (clamp_bounds y lo hi) as [Hhi [_ Hnn]]
        end.
        specialize (Hnn Hfl Hcap). nra. }
  unfold P in HP. simpl Z.add in HP. rewrite Nat2Z.id in HP.
  rewrite Hlen, firstn_all in HP. exact HP.
Qed.

(** X17.  Without redemption only, the accrued coupon, the global cap
    and the global floor have no effect on the price of a path. *)
Theorem price_coupons_ignore_global_limits
    (p : CliquetOptionPathPricer) (path : list R)
    (accruedCoupon globalCap globalFloor : R) :
  redemptionOnly_ p = false ->
  price (mkCliquetOptionPathPricer (type_ p) (underlying_ p) (moneyness_ p)
           accruedCoupon (lastFixing_ p) (localCap_ p) (localFloor_ p)
           globalCap globalFloor (discounts_ p) false) path
  = price p path.
Proof.
  intros Hr. unfold Cliquet.price.
  cbn [discounts_ redemptionOnly_ accruedCoupon_ lastFixing_ underlying_
       globalFloor_ globalCap_].
  rewrite Hr.
  destruct (QL_REQUIRE (Z_gt_dec (size path) 0)); [| reflexivity].
  cbn [bind].
  destruct (QL_REQUIRE (Z.eq_dec (size path) (size (discounts_ p))));
    [| reflexivity].
  cbn [bind]. unfold for_range.
  rewrite (for_loop_ext _ (fixing p path)); [reflexivity |].
  intros j [[r lf] u] _. unfold Cliquet.fixing.
  cbn [type_ moneyness_ localFloor_ localCap_ redemptionOnly_ discounts_].
  rewrite Hr. reflexivity.
Qed.

Variable discount : Time -> result R.
Variable PathGenerator : Type.
Variable pathGenerator_new : R -> list Time -> Z -> result PathGenerator.
Variable MonteCarloModel : Type.
Variable MonteCarloModel_new :
  PathGenerator -> CliquetOptionPathPricer -> result MonteCarloModel.

(** The loop that fills the discounts, started behind a prefix: what it
    has written when it ends normally. *)
Lemma fillDiscount_loop_inv :
  forall (rest pre_t : list Time) (pre_d ds : list R),
    length pre_d = length pre_t ->
    for_loop (length rest) (Z.of_nat (length pre_t))
      (fillDiscount discount (pre_t ++ rest))
      (pre_d ++ repeat 0 (length rest)) = Ok ds ->
    exists ds',
      ds = pre_d ++ ds'
      /\ Forall2 (fun t d => discount t = Ok d) rest ds'.
Proof.
  induction rest as [| t rest IH]; intros pre_t pre_d ds Hlen H.
  - simpl in H. injection H as <-. exists []. split; [reflexivity |].
    constructor.
  - cbn [length for_loop repeat] in H. apply bind_Ok_inv in H.
    destruct H as [s1 [Hb Hrest]]. unfold fillDiscount in Hb.
    rewrite Array_get_middle in Hb. cbn [bind] in Hb.
    apply bind_Ok_inv in Hb. destruct Hb as [dv [Hdv Hset]].
    rewrite <- Hlen in Hset. rewrite Array_set_middle in Hset.
    injection Hset as <-.
    replace (Z.of_nat (length pre_t) + 1)%Z
      with (Z.of_nat (length (pre_t ++ [t]))) in Hrest
      by (rewrite length_app; simpl; lia).
    replace (pre_t ++ t :: rest) with ((pre_t ++ [t]) ++ rest) in Hrest
      by (now rewrite <- app_assoc).
    replace (pre_d ++ dv :: repeat 0 (length rest))
      with ((pre_d ++ [dv]) ++ repeat 0 (length rest)) in Hrest
      by (now rewrite <- app_assoc).
    apply IH in Hrest; [| rewrite !length_app, Hlen; reflexivity].
    destruct Hrest as [ds' [-> Hall]].
    exists (dv :: ds'). split; [now rewrite <- app_assoc |].
    constructor; assumption.
Qed.

Lemma McCliquetOption_discounts_Ok_inv (times : list Time) (ds : list R) :
  McCliquetOption_discounts discount times = Ok ds ->
  Forall2 (fun t d => discount t = Ok d) times ds.
Proof.
  intros H. unfold McCliquetOption_discounts, for_range in H.
  rewrite size_nat in H.
  destruct (fillDiscount_loop_inv times [] [] ds eq_refl H)
    as [ds' [-> Hall]].
  exact Hall.
Qed.

(** The same loop when every discount is obtained. *)
Lemma fillDiscount_loop (f : Time -> R) :
  forall (rest pre_t : list Time) (pre_d : list R),
    length pre_d = length pre_t ->
    (forall t, In t rest -> discount t = Ok (f t)) ->
    for_loop (length rest) (Z.of_nat (length pre_t))
      (fillDiscount discount (pre_t ++ rest))
      (pre_d ++ repeat 0 (length rest))
    = Ok (pre_d ++ map f rest).
Proof.
  induction rest as [| t rest IH]; intros pre_t pre_d Hlen Hf;
    [reflexivity |].
  cbn [length for_loop repeat map]. unfold fillDiscount at 1.
  rewrite Array_get_middle. cbn [bind].
  rewrite (Hf t) by (left; reflexivity). cbn [bind].
  rewrite <- Hlen. rewrite Array_set_middle. cbn [bind].
  replace (Z.of_nat (length pre_d) + 1)%Z
    with (Z.of_nat (length (pre_t ++ [t])))
    by (rewrite length_app, Hlen; simpl; lia).
  replace (pre_t ++ t :: rest) with ((pre_t ++ [t]) ++ rest)
    by (now rewrite <- app_assoc).
  replace (pre_d ++ f t :: repeat 0 (length rest))
    with ((pre_d ++ [f t]) ++ repeat 0 (length rest))
    by (now rewrite <- app_assoc).
  rewrite IH.
  - now rewrite <- app_assoc.
  - rewrite !length_app, Hlen. reflexivity.
  - intros t' Ht'. apply Hf. right. exact Ht'.
Qed.

Lemma McCliquetOption_discounts_Ok (f : Time -> R) (times : list Time) :
  (forall t, In t times -> discount t = Ok (f t)) ->
  McCliquetOption_discounts discount times = Ok (map f times).
Proof.
  intros Hf. unfold McCliquetOption_discounts, for_range. rewrite size_nat.
  exact (fillDiscount_loop f times [] [] eq_refl Hf).
Qed.

(** X18.  When the constructor of [McCliquetOption] ends normally, the
    underlying and the moneyness are positive, every discount, the path
    generator and the Monte Carlo model were obtained, and the path
    pricer handed to the model holds one discount per time, the discount
    of that time, and prices exactly the paths that are not empty and
    have one value per time. *)
Theorem McCliquetOption_new_pathPricer
    (type : OptionType) (underlying moneyness : R) (times : list Time)
    (accruedCoupon lastFixing localCap localFloor globalCap globalFloor : R)
    (redemptionOnly : bool) (seed : Z) (mcModel : MonteCarloModel) :
  McCliquetOption_new NullDouble QL_MAX_DOUBLE discount PathGenerator
    pathGenerator_new MonteCarloModel MonteCarloModel_new type underlying
    moneyness times accruedCoupon lastFixing localCap localFloor globalCap
    globalFloor redemptionOnly seed = Ok mcModel ->
  underlying > 0 /\ moneyness > 0
  /\ exists pathGenerator cliquetPathPricer,
       pathGenerator_new underlying times seed = Ok pathGenerator
       /\ Cliquet.new NullDouble QL_MAX_DOUBLE type underlying moneyness
            accruedCoupon lastFixing localCap localFloor globalCap
            globalFloor (discounts_ cliquetPathPricer) redemptionOnly
          = Ok cliquetPathPricer
       /\ MonteCarloModel_new pathGenerator cliquetPathPricer = Ok mcModel
       /\ Forall2 (fun t d => discount t = Ok d) times
            (discounts_ cliquetPathPricer)
       /\ forall path : list R,
            (exists v, price cliquetPathPricer path = Ok v)
            <-> ((0 < length path)%nat /\ length path = length times).
Proof.
  intros H. unfold McCliquetOption_new in H.
  apply bind_Ok_inv in H. destruct H as [ds [Hds H]].
  apply bind_Ok_inv in H. destruct H as [g [Hg H]].
  apply bind_Ok_inv in H. destruct H as [p [Hp Hm]].
  apply McCliquetOption_discounts_Ok_inv in Hds.
  pose proof Hp as Hnew. unfold Cliquet.new, QL_REQUIRE in Hp.
  destruct (Rgt_dec underlying 0) as [Hu | _]; [| discriminate Hp].
  destruct (Rgt_dec moneyness 0) as [Hmo | _]; [| discriminate Hp].
  cbn [bind] in Hp. injection Hp as Hp.
  assert (Hd : discounts_ p = ds) by (rewrite <- Hp; reflexivity).
  split; [exact Hu |]. split; [exact Hmo |].
  exists g, p. rewrite Hd.
  split; [exact Hg |]. split; [exact Hnew |]. split; [exact Hm |].
  split; [exact Hds |].
  intros path. rewrite (Forall2_length Hds). rewrite <- Hd. split.
  - intros [v Hv]. apply price_Ok_inv in Hv. tauto.
  - intros [Hn He]. apply price_total; assumption.
Qed.

End PathPricerFacts.

Lemma price_redemption_within_global_limits_witness :
  exists v,
    Cliquet.price (-1) (fun _ k s => Rmax (s - k) 0) (fun _ => 0)
      (mkCliquetOptionPathPricer Call 100 1 0 100 (1/10) 0 (1/2) 0
         [9/10] true) [0] = Ok v
    /\ 9/10 * 0 <= v /\ v <= 9/10 * (1/2).
Proof.
  destruct (price_total (-1) (fun _ k s => Rmax (s - k) 0) (fun _ => 0)
              (mkCliquetOptionPathPricer Call 100 1 0 100 (1/10) 0 (1/2) 0
                 [9/10] true) [0]) as [v Hv];
    [simpl; lia | reflexivity |].
  exists v. split; [exact Hv |].
  pose proof (price_redemption_within_global_limits (-1)
                (fun _ k s => Rmax (s - k) 0) (fun _ => 0)
                (mkCliquetOptionPathPricer Call 100 1 0 100 (1/10) 0 (1/2) 0
                   [9/10] true) [0] v) as H.
  cbn [underlying_ lastFixing_ redemptionOnly_ globalFloor_ globalCap_
       discounts_ length Nat.sub nth] in H.
  apply H; [lra | lra | reflexivity | lra | lra | exact Hv].
Defined.

Lemma price_coupons_within_local_cap_witness :
  exists v,
    Cliquet.price (-1) (fun _ k s => Rmax (s - k) 0) (fun _ => 0)
      (mkCliquetOptionPathPricer Call 100 1 0 100 (1/10) 0 (1/2) 0
         [9/10; 8/10] false) [0; 0] = Ok v
    /\ 0 <= v <= 1/10 * (9/10 + (8/10 + 0)).
Proof.
  destruct (price_total (-1) (fun _ k s => Rmax (s - k) 0) (fun _ => 0)
              (mkCliquetOptionPathPricer Call 100 1 0 100 (1/10) 0 (1/2) 0
                 [9/10; 8/10] false) [0; 0]) as [v Hv];
    [simpl; lia | reflexivity |].
  exists v. split; [exact Hv |].
  pose proof (price_coupons_within_local_cap (-1)
                (fun _ k s => Rmax (s - k) 0) (fun _ => 0)
                (mkCliquetOptionPathPricer Call 100 1 0 100 (1/10) 0 (1/2) 0
                   [9/10; 8/10] false) [0; 0] v) as H.
  cbn [underlying_ lastFixing_ redemptionOnly_ localFloor_ localCap_
       discounts_ fold_right] in H.
  apply H; [lra | lra | reflexivity | lra | lra | | exact Hv].
  repeat constructor; lra.
Defined.

Lemma price_coupons_ignore_global_limits_witness :
  Cliquet.price (-1) (fun _ k s => Rmax (s - k) 0) (fun _ => 0)
    (mkCliquetOptionPathPricer Call 100 1 7 100 (1/10) 0 3 2
       [9/10; 8/10] false) [0; 0]
  = Cliquet.price (-1) (fun _ k s => Rmax (s - k) 0) (fun _ => 0)
      (mkCliquetOptionPathPricer Call 100 1 0 100 (1/10) 0 (1/2) 0
         [9/10; 8/10] false) [0; 0].
Proof.
  exact (price_coupons_ignore_global_limits (-1)
           (fun _ k s => Rmax (s - k) 0) (fun _ => 0)
           (mkCliquetOptionPathPricer Call 100 1 0 100 (1/10) 0 (1/2) 0
              [9/10; 8/10] false) [0; 0] 7 3 2 eq_refl).
Defined.

Lemma McCliquetOption_new_pathPricer_witness :
  exists mcModel : unit * CliquetOptionPathPricer,
    McCliquetOption_new (-1) 1000000 (fun _ => Ok (9/10)) unit
      (fun _ _ _ => Ok tt) (unit * CliquetOptionPathPricer)%type
      (fun g p => Ok (g, p)) Call 100 1 [1/2; 1] 0 100 (1/10) 0 (1/2) 0
      false 42 = Ok mcModel
    /\ discounts_ (snd mcModel) = [9/10; 9/10]
    /\ exists v,
         Cliquet.price (-1) (fun _ k s => Rmax (s - k) 0) (fun _ => 0)
           (snd mcModel) [0; 0] = Ok v.
Proof.
  assert (Hrun : exists mcModel : unit * CliquetOptionPathPricer,
            McCliquetOption_new (-1) 1000000 (fun _ => Ok (9/10)) unit
              (fun _ _ _ => Ok tt) (unit * CliquetOptionPathPricer)%type
              (fun g p => Ok (g, p)) Call 100 1 [1/2; 1] 0 100 (1/10) 0
              (1/2) 0 false 42 = Ok mcModel
            /\ discounts_ (snd mcModel) = [9/10; 9/10]).
  { unfold McCliquetOption_new.
    rewrite (McCliquetOption_discounts_Ok (fun _ => Ok (9/10))
               (fun _ => 9/10)) by reflexivity.
    cbn [bind map]. unfold Cliquet.new, QL_REQUIRE.
    destruct (Rgt_dec 100 0) as [_ | Hn]; [| lra].
    destruct (Rgt_dec 1 0) as [_ | Hn]; [| lra].
    cbn [bind]. eexists. split; reflexivity. }
  destruct Hrun as [mcModel [Hrun Hd]]. exists mcModel.
  split; [exact Hrun |]. split; [exact Hd |].
  destruct (McCliquetOption_new_pathPricer (-1) 1000000
              (fun _ k s => Rmax (s - k) 0) (fun _ => 0)
              (fun _ => Ok (9/10)) unit (fun _ _ _ => Ok tt)
              (unit * CliquetOptionPathPricer)%type (fun g p => Ok (g, p))
              Call 100 1 [1/2; 1] 0 100 (1/10) 0 (1/2) 0 false 42 mcModel
              Hrun)
    as [_ [_ [g [p [_ [_ [Hm [_ Hacc]]]]]]]].
  injection Hm as <-. cbn [snd].
  apply Hacc. simpl. split; [lia | reflexivity].
Defined.

End CliquetFacts.
